(** * agc: dereplication and abundance greedy clustering of amplicons

    A shallow embedding of [src/agc/agc.py] and the properties of its
    reader, deduplicator, identity score, greedy clusterer and writer.

    Conventions of the embedding.
    - A Python [str] is a [string]; an [ascii] stands for the code point of
      the same number (0..255).
    - A Python [int] is a [Z]; a Python [float] is an IEEE 754 binary64 value,
      a [spec_float] with precision 53 and maximal exponent 1024.
    - A generator is the list of the values it yields, in order.
    - A raised exception is the [Raise] case of [result].
    - The compressed amplicon file is the list of its text lines, as the
      iteration [for line in f] delivers them.
    - [nw.global_align] and [textwrap.fill] are library functions from outside
      the repository: they are parameters of the development. *)

From Stdlib Require Import ZArith List String Ascii Bool Lia.
From Stdlib Require Import Sorting.Sorted Sorting.Permutation.
From Stdlib Require Import Floats.SpecFloat.
From Stdlib Require Import DecimalString.
Import ListNotations.

Local Open Scope string_scope.
Local Open Scope list_scope.
Local Open Scope Z_scope.

(* ================================================================= *)
(** ** Python primitives used by the program *)

Module Py.

(** Exceptions that can end a run of the clustering. [ExternalError] is
    whatever the alignment library raises. *)
Inductive exn : Type :=
| ZeroDivisionError
| OverflowError
| ExternalError.

Inductive result (A : Type) : Type :=
| Ok (a : A)
| Raise (e : exn).
Arguments Ok {A} a.
Arguments Raise {A} e.

Definition try_bind {A B} (r : result A) (k : A -> result B) : result B :=
  match r with
  | Ok a => k a
  | Raise e => Raise e
  end.

(** *** Floats *)

Definition float : Type := spec_float.
Definition prec : Z := 53.
Definition emax : Z := 1024.

(** [float(z)]: the int converted to the nearest binary64. *)
Definition float_of_int (z : Z) : float := binary_normalize prec emax z 0 false.

(** An int as an unrounded dyadic number, mantissa [z], exponent 0. *)
Definition exact_int (z : Z) : float :=
  match z with
  | Z0 => S754_zero false
  | Zpos p => S754_finite false p 0
  | Zneg p => S754_finite true p 0
  end.

(** [a / b] on ints: the quotient of the two integers, rounded once to
    the nearest binary64 (ties to even). *)
Definition int_truediv (a b : Z) : result float :=
  if b =? 0 then Raise ZeroDivisionError
  else match SFdiv prec emax (exact_int a) (exact_int b) with
       | S754_infinity _ => Raise OverflowError
       | q => Ok q
       end.

Definition float_mul (x y : float) : float := SFmul prec emax x y.

(** [x >= y] and [x < y] on floats; both are false when an operand is a
    NaN. *)
Definition float_ge (x y : float) : bool := SFleb y x.
Definition float_lt (x y : float) : bool := SFltb x y.

Definition is_nan (x : float) : bool :=
  match x with S754_nan => true | _ => false end.

(** *** Strings *)

Definition len (s : string) : Z := Z.of_nat (String.length s).

Definition startswith (s pre : string) : bool := String.prefix pre s.

(** [str.isspace] on one character, for code points below 256: the
    controls TAB, LF, VT, FF, CR, FS, GS, RS, US, the space, NEL and the
    no-break space. *)
Definition isspace (c : ascii) : bool :=
  let n := N_of_ascii c in
  (((9 <=? n) && (n <=? 13)) || ((28 <=? n) && (n <=? 31))
   || (n =? 32) || (n =? 133) || (n =? 160))%N.

Fixpoint lstrip (s : string) : string :=
  match s with
  | EmptyString => EmptyString
  | String c s' => if isspace c then lstrip s' else s
  end.

Fixpoint rstrip (s : string) : string :=
  match s with
  | EmptyString => EmptyString
  | String c s' =>
      match rstrip s' with
      | EmptyString => if isspace c then EmptyString else String c EmptyString
      | r => String c r
      end
  end.

(** [s.strip()] with no argument. *)
Definition strip (s : string) : string := rstrip (lstrip s).

(** [str(z)] for an int, as an f-string formats it. *)
Definition str_of_int (z : Z) : string := NilZero.string_of_int (Z.to_int z).

(** *** Iteration helpers *)

Definition zip (s1 s2 : string) : list (ascii * ascii) :=
  combine (list_ascii_of_string s1) (list_ascii_of_string s2).

Definition sum (l : list Z) : Z := fold_left Z.add l 0.

Fixpoint enumerate {A} (l : list A) (start : Z) : list (Z * A) :=
  match l with
  | [] => []
  | x :: r => (start, x) :: enumerate r (start + 1)
  end.

(** *** collections.Counter

    A Counter is a dict: keys stay in the order of their first insertion
    and an update of a present key leaves its place unchanged. *)

Definition counter : Type := list (string * Z).

Fixpoint counter_incr (k : string) (c : counter) : counter :=
  match c with
  | [] => [(k, 1)]
  | (k', n) :: rest =>
      if String.eqb k' k then (k', n + 1) :: rest
      else (k', n) :: counter_incr k rest
  end.

Definition Counter (items : list string) : counter :=
  fold_left (fun c k => counter_incr k c) items [].

(** [most_common()] is [sorted(items, key=count, reverse=True)]: a stable
    sort, so items of equal count keep their dict order. *)
Fixpoint insert_desc (x : string * Z) (l : list (string * Z)) : list (string * Z) :=
  match l with
  | [] => [x]
  | y :: l' => if snd y >? snd x then y :: insert_desc x l' else x :: l
  end.

Fixpoint sorted_desc (l : list (string * Z)) : list (string * Z) :=
  match l with
  | [] => []
  | x :: l' => insert_desc x (sorted_desc l')
  end.

Definition most_common (c : counter) : list (string * Z) := sorted_desc c.

End Py.
Import Py.

(* ================================================================= *)
(** ** The program *)

(** The lines of the decompressed amplicon file. *)
Definition text_file : Type := list string.

(** A dereplicated sequence with its number of occurrences, and an OTU:
    the two-element lists [[sequence, count]] of the source. *)
Definition candidate : Type := (string * Z)%type.
Definition OTU : Type := (string * Z)%type.

(** *** read_fasta *)

(** One turn of the loop [for line in f]: the state is the sequence being
    accumulated and the values yielded so far. *)
Definition read_fasta_line (minseqlen : Z) (st : string * list string) (line : string)
  : string * list string :=
  let '(sequence, yielded) := st in
  if startswith line ">" then
    (EmptyString,
     if len sequence >=? minseqlen then yielded ++ [sequence] else yielded)
  else
    ((sequence ++ strip line)%string, yielded).

Definition read_fasta (amplicon_file : text_file) (minseqlen : Z) : list string :=
  let '(sequence, yielded) :=
    fold_left (read_fasta_line minseqlen) amplicon_file (EmptyString, []) in
  if len sequence >=? minseqlen then yielded ++ [sequence] else yielded.

(** *** dereplication_fulllength *)

Definition dereplication_fulllength (amplicon_file : text_file) (minseqlen mincount : Z)
  : list candidate :=
  let sequence_counts := Counter (read_fasta amplicon_file minseqlen) in
  filter (fun '(sequence, count) => count >=? mincount) (most_common sequence_counts).

(** *** get_identity *)

Definition count_matches (sequence1 sequence2 : string) : Z :=
  sum (map (fun _ => 1) (filter (fun '(a, b) => Ascii.eqb a b) (zip sequence1 sequence2))).

Definition get_identity (alignment_list : string * string) : result float :=
  let '(sequence1, sequence2) := alignment_list in
  let matches := count_matches sequence1 sequence2 in
  try_bind (int_truediv matches (len sequence1))
           (fun q => Ok (float_mul q (float_of_int 100))).

(** *** abundance_greedy_clustering *)

(** A call of the aligner: the candidate sequence and the representative it
    is aligned against. *)
Definition align_call : Type := (string * string)%type.

(** Computations that may raise and that record the calls of the aligner. *)
Definition M (A : Type) : Type := list align_call -> result A * list align_call.

Definition ret {A} (a : A) : M A := fun calls => (Ok a, calls).

Definition bind {A B} (m : M A) (k : A -> M B) : M B :=
  fun calls =>
    match m calls with
    | (Ok a, calls') => k a calls'
    | (Raise e, calls') => (Raise e, calls')
    end.

Definition lift {A} (r : result A) : M A := fun calls => (r, calls).

Declare Scope agc_scope.
Delimit Scope agc_scope with agc.
Notation "x <- m ;; k" := (bind m (fun x => k))
  (at level 100, m at next level, right associativity) : agc_scope.

Section Clustering.

(** [nw.global_align(seq, otu, gap_open=-1, gap_extend=-1, matrix=MATCH)]:
    the two aligned strings, or an exception. *)
Variable global_align : string -> string -> result (string * string).

Definition nw_global_align (sequence otu : string) : M (string * string) :=
  fun calls => (global_align sequence otu, calls ++ [(sequence, otu)]).

(** The identity of a candidate against a representative, as one turn of
    the inner loop computes it. *)
Definition identity_of (sequence otu : string) : result float :=
  try_bind (global_align sequence otu) get_identity.

(** The inner loop [for otu, _ in otus]: the final value of [is_otu]. *)
Fixpoint scan_otus (sequence : string) (otus : list OTU) : M bool :=
  match otus with
  | [] => ret true
  | (otu, _) :: rest =>
      (alignment <- nw_global_align sequence otu ;;
       identity <- lift (get_identity alignment) ;;
       if float_ge identity (float_of_int 97) then ret false
       else scan_otus sequence rest)%agc
  end.

(** One turn of the outer loop, from the OTU list to the OTU list. *)
Definition visit_candidate (c : candidate) (otus : list OTU) : M (list OTU) :=
  let '(sequence, count) := c in
  (is_otu <- scan_otus sequence otus ;;
   ret (if is_otu : bool then otus ++ [(sequence, count)] else otus))%agc.

(** The outer loop over the candidates, started with the list [otus]. *)
Fixpoint cluster_candidates (candidates : list candidate) (otus : list OTU)
  : M (list OTU) :=
  match candidates with
  | [] => ret otus
  | c :: rest =>
      (otus' <- visit_candidate c otus ;; cluster_candidates rest otus')%agc
  end.

Definition abundance_greedy_clustering
  (amplicon_file : text_file) (minseqlen mincount chunk_size kmer_size : Z)
  : M (list OTU) :=
  cluster_candidates (dereplication_fulllength amplicon_file minseqlen mincount) [].

End Clustering.

(** *** write_OTU *)

(** An output file opened with mode ["w"]: the strings written to it, in
    order; its content is their concatenation. *)
Definition out_file : Type := list string.

Definition f_write (f : out_file) (s : string) : out_file := f ++ [s].

Definition content (f : out_file) : string := String.concat EmptyString f.

Section Writer.

(** [textwrap.fill(text, width=w)]. *)
Variable textwrap_fill : string -> Z -> string.

Definition otu_header (i count : Z) : string :=
  (">OTU_" ++ str_of_int i ++ " occurrence:" ++ str_of_int count
     ++ String "010" EmptyString)%string.

Definition otu_body (sequence : string) : string :=
  (textwrap_fill sequence 80 ++ String "010" EmptyString)%string.

(** The two strings written for one OTU. *)
Definition otu_record (entry : Z * OTU) : list string :=
  let '(i, (sequence, count)) := entry in
  [otu_header i count; otu_body sequence].

Definition write_OTU (OTU_list : list OTU) : out_file :=
  fold_left
    (fun f '(i, (sequence, count)) =>
       f_write (f_write f (otu_header i count)) (otu_body sequence))
    (enumerate OTU_list 1) [].

End Writer.


(** *** main *)

(** The parsed command line, as [get_arguments] returns it. *)
Record arguments : Type := {
  amplicon_file : text_file;
  minseqlen : Z;
  mincount : Z;
  output_file : string
}.

Section Main.

Variable global_align : string -> string -> result (string * string).
Variable textwrap_fill : string -> Z -> string.

(** The two messages printed after the output file is written; the
    accented letter is the code point 233. *)
Definition main_messages (args : arguments) : list string :=
  ["Clustering OTU fini !";
   ("Sequences OTU ont " ++ String "233" ("t" ++ String "233" " " ++ "crites dans ")
      ++ output_file args)%string].

(** A run of [main] that does not raise leaves the output file and the
    printed lines. *)
Definition main (args : arguments) : M (out_file * list string) :=
  (otu_list <- abundance_greedy_clustering global_align
                 (amplicon_file args) (minseqlen args) (mincount args) 100 8 ;;
   ret (write_OTU textwrap_fill otu_list, main_messages args))%agc.

End Main.

(* ================================================================= *)
(** ** Reference definitions used in the statements *)

(** *** Identity *)

(** Column [i] of an alignment carries the same character in both rows. *)
Definition column_equal (alignedA alignedB : string) (i : nat) : bool :=
  match String.get i alignedA, String.get i alignedB with
  | Some a, Some b => Ascii.eqb a b
  | _, _ => false
  end.

(** The number of column positions [i] with [alignedA[i] == alignedB[i]]. *)
Definition matching_columns (alignedA alignedB : string) : Z :=
  Z.of_nat (List.length (filter (column_equal alignedA alignedB)
                                (seq 0 (String.length alignedA)))).

(** 100 times ([count] divided by [total]), in the arithmetic of the
    program: the division of two ints, then the product of two floats. *)
Definition percentage (count total : Z) : result float :=
  try_bind (int_truediv count total) (fun q => Ok (float_mul (float_of_int 100) q)).

(** A float that is a zero or a finite non-zero number. *)
Definition is_number (x : float) : bool :=
  match x with
  | S754_zero _ | S754_finite _ _ _ => true
  | _ => false
  end.

(** *** Rounding

    The position of the fraction [R / D], with [0 <= R < D], in the unit
    interval: at 0, or below, at or above the middle. *)
Definition loc_of (R D : Z) : location :=
  if R =? 0 then loc_Exact else loc_Inexact (2 * R ?= D).

(** The shift record [mrs] stands for the fraction [N / D]: its mantissa is
    the integer part and its two bits tell where the rest lies. *)
Definition shr_inv (mrs : shr_record) (N D : Z) : Prop :=
  0 < D /\ 0 <= N /\ shr_m mrs = N / D
  /\ loc_of_shr_record mrs = loc_of (N mod D) D.

(** *** Records of a FASTA text *)

(** The body lines of each record: a header line closes the block being
    read, the end of the text closes the last one. *)
Fixpoint record_blocks (lines : list string) (current : list string)
  : list (list string) :=
  match lines with
  | [] => [current]
  | line :: rest =>
      if startswith line ">" then current :: record_blocks rest []
      else record_blocks rest (current ++ [line])
  end.

(** The sequence of a record: its body lines, each stripped, joined. *)
Definition join_block (block : list string) : string :=
  String.concat EmptyString (map strip block).

(** The sequence of each record, before any length filter. *)
Definition fasta_records (lines : list string) : list string :=
  map join_block (record_blocks lines []).

Definition long_enough (minseqlen : Z) (sequence : string) : bool :=
  len sequence >=? minseqlen.

(** *** Dereplication *)

(** The number of times [s] occurs in [items]. *)
Definition occurrences (items : list string) (s : string) : Z :=
  Z.of_nat (count_occ string_dec items s).

(** The distinct elements of [items], each at the place of its first
    occurrence. *)
Fixpoint first_seen (items : list string) : list string :=
  match items with
  | [] => []
  | x :: rest => x :: filter (fun y => negb (String.eqb y x)) (first_seen rest)
  end.

(** The order of the candidate stream: [a] may come before [b]. *)
Definition count_ge (a b : string * Z) : Prop := snd a >= snd b.

(** *** Whitespace *)

Definition is_line_terminator (c : ascii) : bool :=
  (N_of_ascii c =? 10)%N || (N_of_ascii c =? 13)%N.

(** A line without the line terminators that end it, and nothing else
    removed. *)
Fixpoint remove_line_terminators (s : string) : string :=
  match s with
  | EmptyString => EmptyString
  | String c s' =>
      match remove_line_terminators s' with
      | EmptyString => if is_line_terminator c then EmptyString else String c EmptyString
      | r => String c r
      end
  end.

Definition all_space (s : string) : bool :=
  forallb isspace (list_ascii_of_string s).

Definition head_is_space (s : string) : bool :=
  match s with
  | EmptyString => false
  | String c _ => isspace c
  end.

Fixpoint last_is_space (s : string) : bool :=
  match s with
  | EmptyString => false
  | String c EmptyString => isspace c
  | String _ s' => last_is_space s'
  end.

(** *** Clustering *)

(** [l1] is [l2] with some elements left out, the others in their order. *)
Inductive subsequence {A : Type} : list A -> list A -> Prop :=
| subsequence_nil : subsequence [] []
| subsequence_skip (x : A) (l1 l2 : list A) :
    subsequence l1 l2 -> subsequence l1 (x :: l2)
| subsequence_keep (x : A) (l1 l2 : list A) :
    subsequence l1 l2 -> subsequence (x :: l1) (x :: l2).

Definition threshold : float := float_of_int 97.

Section ClusteringPredicates.

Variable global_align : string -> string -> result (string * string).

(** The test of the inner loop succeeds for [sequence] against [otu]: the
    alignment and the identity are computed and the identity is at least
    97. *)
Definition absorbed_by (sequence otu : string) : bool :=
  match identity_of global_align sequence otu with
  | Ok identity => float_ge identity threshold
  | Raise _ => false
  end.

(** The test is computed and fails: the identity is below 97. *)
Definition kept_apart (sequence otu : string) : bool :=
  match identity_of global_align sequence otu with
  | Ok identity => negb (float_ge identity threshold)
  | Raise _ => false
  end.

(** [sequence] is kept apart from the OTU [o]. *)
Definition kept_by (sequence : string) (o : OTU) : Prop :=
  kept_apart sequence (fst o) = true.

(** The calls of the aligner made when [sequence] is compared with each
    of [otus] in turn. *)
Definition calls_against (sequence : string) (otus : list OTU) : list align_call :=
  map (fun o => (sequence, fst o)) otus.

End ClusteringPredicates.

(** *** Sample library functions, for running the model *)

Fixpoint copies (n : nat) (c : ascii) : string :=
  match n with
  | O => EmptyString
  | S k => String c (copies k c)
  end.

Definition gaps (n : nat) : string := copies n "-".

(** An aligner that pads the shorter sequence with gaps at its end. *)
Definition pad_align (a b : string) : result (string * string) :=
  Ok ((a ++ gaps (String.length b - String.length a))%string,
      (b ++ gaps (String.length a - String.length b))%string).

(** An aligner that raises on every call. *)
Definition failing_align (a b : string) : result (string * string) :=
  Raise ExternalError.

(** An aligner that returns an empty alignment. *)
Definition empty_align (a b : string) : result (string * string) :=
  Ok (EmptyString, EmptyString).

(** A stand-in for [textwrap.fill] that leaves the text on one line. *)
Definition one_line_fill (text : string) (width : Z) : string := text.

Definition newline : string := String "010" EmptyString.

Definition tab : string := String "009" EmptyString.

(** A FASTA text with one record per read, each sequence on one line. *)
Definition fasta_of (reads : list string) : text_file :=
  flat_map (fun s => [(">read" ++ newline)%string; (s ++ newline)%string]) reads.

(** Four sequences of 40 bases: [seq_b] differs from [seq_a] in its last
    base only (39 of 40 columns equal, 97.5 per cent); [seq_c] and [seq_d]
    share no column with the others. *)
Definition seq_a : string := copies 40 "A".
Definition seq_b : string := (copies 39 "A" ++ "C")%string.
Definition seq_c : string := copies 40 "G".
Definition seq_d : string := copies 40 "T".

(** Reads: [seq_c] four times, [seq_a] three times, [seq_d] twice, [seq_b]
    once. *)
Definition sample_reads : list string :=
  [seq_c; seq_a; seq_c; seq_d; seq_a; seq_c; seq_b; seq_a; seq_d; seq_c].

Definition sample_file : text_file := fasta_of sample_reads.

(** A body line with a leading space and a trailing tab before its line
    terminator. *)
Definition padded_line : string := (" AC" ++ tab ++ newline)%string.

(* ================================================================= *)
(** ** Facts on binary64 arithmetic *)

Lemma digits2_pos_size p : digits2_pos p = Pos.size p.
Proof. induction p; simpl; congruence. Qed.

Lemma Zdigits2_nonneg m : 0 <= Zdigits2 m.
Proof. destruct m; simpl; lia. Qed.

Lemma Zdigits2_bound m k : 0 <= k -> 0 <= m < 2 ^ k -> Zdigits2 m <= k.
Proof.
  intros Hk [Hm Hlt]. destruct m as [|p|p]; simpl; try lia.
  rewrite digits2_pos_size.
  pose proof (Pos.size_le p) as Hs.
  apply Pos2Z.pos_le_pos in Hs. rewrite Pos2Z.inj_pow in Hs.
  destruct (Z_le_gt_dec (Z.pos (Pos.size p)) k) as [|Hgt]; [assumption|exfalso].
  assert (2 ^ (k + 1) <= 2 ^ Z.pos (Pos.size p)) by (apply Z.pow_le_mono_r; lia).
  rewrite Z.pow_add_r in H by lia. change (Z.pos p~0) with (2 * Z.pos p) in Hs. lia.
Qed.

Lemma fexp_eq e : fexp prec emax e = Z.max (e - 53) (-1074).
Proof. reflexivity. Qed.

Lemma shr_1_m mrs : 0 <= shr_m mrs -> 0 <= shr_m (shr_1 mrs) <= shr_m mrs.
Proof.
  destruct mrs as [m r s]. simpl. destruct m as [|[p|p|]|p]; simpl; lia.
Qed.

Lemma iter_shr_1_m p : forall mrs, 0 <= shr_m mrs ->
  0 <= shr_m (iter_pos shr_1 p mrs) <= shr_m mrs.
Proof.
  induction p as [p IH|p IH|]; intros mrs H; simpl.
  - pose proof (shr_1_m mrs H) as H1.
    pose proof (IH _ (proj1 H1)) as H2.
    pose proof (IH _ (proj1 H2)) as H3. lia.
  - pose proof (IH _ H) as H2.
    pose proof (IH _ (proj1 H2)) as H3. lia.
  - apply shr_1_m; assumption.
Qed.

Lemma shr_record_of_loc_m m l : shr_m (shr_record_of_loc m l) = m.
Proof. destruct l as [|[]]; reflexivity. Qed.

Lemma shr_fexp_m m e l : 0 <= m ->
  0 <= shr_m (fst (shr_fexp prec emax m e l)) <= m.
Proof.
  intros H. unfold shr_fexp, shr.
  destruct (fexp prec emax (Zdigits2 m + e) - e) as [|p|p]; simpl;
    rewrite ?shr_record_of_loc_m; try lia.
  pose proof (iter_shr_1_m p (shr_record_of_loc m l)) as Hi.
  rewrite shr_record_of_loc_m in Hi. auto.
Qed.

Lemma shr_fexp_e m e l :
  snd (shr_fexp prec emax m e l) = Z.max e (fexp prec emax (Zdigits2 m + e)).
Proof.
  unfold shr_fexp, shr.
  destruct (fexp prec emax (Zdigits2 m + e) - e) as [|p|p] eqn:E; simpl; lia.
Qed.

Lemma round_nearest_even_m m l : 0 <= m -> m <= round_nearest_even m l <= m + 1.
Proof.
  intros H. destruct l as [|[]]; simpl; try lia. destruct (Z.even m); lia.
Qed.

(** A rounded non-negative mantissa never gives a NaN. *)
Lemma binary_round_aux_not_nan sx mx ex lx : 0 <= mx ->
  is_nan (binary_round_aux prec emax sx mx ex lx) = false.
Proof.
  intros H. unfold binary_round_aux.
  pose proof (shr_fexp_m mx ex lx H) as H1.
  destruct (shr_fexp prec emax mx ex lx) as [mrs' e'] eqn:E1. simpl in H1.
  pose proof (round_nearest_even_m (shr_m mrs') (loc_of_shr_record mrs') (proj1 H1)) as H2.
  assert (H3 : 0 <= round_nearest_even (shr_m mrs') (loc_of_shr_record mrs')) by lia.
  pose proof (shr_fexp_m _ e' loc_Exact H3) as H4.
  destruct (shr_fexp prec emax _ e' loc_Exact) as [mrs'' e''] eqn:E2. simpl in H4.
  destruct (shr_m mrs'') as [|p|p]; try reflexivity; try lia.
  destruct (e'' <=? emax - prec); reflexivity.
Qed.

Lemma binary_round_aux_small sx mx ex lx :
  -1074 <= ex <= -53 -> 0 <= mx <= 2 ^ (- ex) ->
  is_number (binary_round_aux prec emax sx mx ex lx) = true.
Proof.
  intros Hex Hmx. unfold binary_round_aux.
  pose proof (shr_fexp_m mx ex lx (proj1 Hmx)) as H1.
  pose proof (shr_fexp_e mx ex lx) as G1.
  destruct (shr_fexp prec emax mx ex lx) as [mrs' e'] eqn:E1. simpl in H1, G1.
  pose proof (round_nearest_even_m (shr_m mrs') (loc_of_shr_record mrs') (proj1 H1)) as H2.
  set (m1 := round_nearest_even (shr_m mrs') (loc_of_shr_record mrs')) in *.
  assert (H3 : 0 <= m1) by lia.
  pose proof (shr_fexp_m _ e' loc_Exact H3) as H4.
  pose proof (shr_fexp_e m1 e' loc_Exact) as G2.
  destruct (shr_fexp prec emax m1 e' loc_Exact) as [mrs'' e''] eqn:E2. simpl in H4, G2.
  assert (Hp : 2 ^ (- ex + 1) = 2 * 2 ^ (- ex)) by (rewrite Z.pow_add_r by lia; lia).
  assert (Hpos : 2 ^ 1 <= 2 ^ (- ex)) by (apply Z.pow_le_mono_r; lia).
  change (2 ^ 1) with 2 in Hpos.
  assert (D1 : Zdigits2 mx <= - ex + 1) by (apply Zdigits2_bound; lia).
  assert (D2 : Zdigits2 m1 <= - ex + 1) by (apply Zdigits2_bound; lia).
  rewrite fexp_eq in G1, G2.
  destruct (shr_m mrs'') as [|p|p]; try reflexivity; try lia.
  replace (e'' <=? emax - prec) with true; [reflexivity|].
  symmetry. apply Z.leb_le. unfold emax, prec. lia.
Qed.

Lemma Zdigits2_mono a b : 0 <= a <= b -> Zdigits2 a <= Zdigits2 b.
Proof.
  intros H. destruct b as [|q|q]; try lia.
  - replace a with 0 by lia. reflexivity.
  - apply Zdigits2_bound; [apply Zdigits2_nonneg|].
    split; [lia|]. simpl. rewrite digits2_pos_size.
    pose proof (Pos.size_gt q) as Hs. apply Pos2Z.pos_lt_pos in Hs.
    rewrite Pos2Z.inj_pow in Hs. lia.
Qed.

Lemma SFdiv_le_number (m n : positive) : (m <= n)%positive ->
  is_number (SFdiv prec emax (S754_finite false m 0) (S754_finite false n 0)) = true.
Proof.
  intros Hmn. unfold SFdiv, SFdiv_core_binary.
  assert (Hd : Zdigits2 (Z.pos m) <= Zdigits2 (Z.pos n)) by (apply Zdigits2_mono; lia).
  pose proof (Zdigits2_nonneg (Z.pos m)) as Hd0.
  rewrite fexp_eq.
  set (e' := Z.min _ _).
  assert (He : -1074 <= e' <= -53) by (subst e'; lia).
  replace (0 - 0 - e') with (- e') by lia.
  destruct (- e') as [|s|s] eqn:Es; try lia.
  rewrite Z.shiftl_mul_pow2 by lia.
  pose proof (Z.div_eucl_eq (Z.pos m * 2 ^ Z.pos s) (Z.pos n) ltac:(lia)) as Hq.
  pose proof (Z.mod_pos_bound (Z.pos m * 2 ^ Z.pos s) (Z.pos n) ltac:(lia)) as Hr.
  unfold Z.modulo in Hr.
  destruct (Z.div_eucl (Z.pos m * 2 ^ Z.pos s) (Z.pos n)) as [q r].
  apply binary_round_aux_small; [assumption|].
  rewrite Es.
  assert (0 < 2 ^ Z.pos s) by (apply Z.pow_pos_nonneg; lia).
  split; nia.
Qed.


Lemma SFdiv_self (n : positive) :
  SFdiv prec emax (S754_finite false n 0) (S754_finite false n 0)
  = S754_finite false 4503599627370496 (-52).
Proof.
  unfold SFdiv, SFdiv_core_binary.
  replace (Zdigits2 (Z.pos n) + 0 - (Zdigits2 (Z.pos n) + 0)) with 0 by lia.
  change (Z.min (fexp prec emax 0) (0 - 0)) with (-53).
  change (0 - 0 - -53) with 53.
  cbv iota beta.
  rewrite Z.shiftl_mul_pow2 by lia.
  assert (Hdiv : Z.div_eucl (Z.pos n * 2 ^ 53) (Z.pos n) = (2 ^ 53, 0)).
  { rewrite Z.mul_comm.
    pose proof (Z.div_mul (2 ^ 53) (Z.pos n) ltac:(lia)) as Hq.
    pose proof (Z.mod_mul (2 ^ 53) (Z.pos n) ltac:(lia)) as Hr.
    unfold Z.div, Z.modulo in Hq, Hr.
    destruct (Z.div_eucl (2 ^ 53 * Z.pos n) (Z.pos n)) as [q r].
    simpl in Hq, Hr. subst. reflexivity. }
  rewrite Hdiv.
  replace (new_location (Z.pos n) 0) with loc_Exact.
  - vm_compute. reflexivity.
  - unfold new_location, new_location_even, new_location_odd.
    destruct (Z.even (Z.pos n)); reflexivity.
Qed.

Lemma int_truediv_self n : 0 < n ->
  int_truediv n n = Ok (S754_finite false 4503599627370496 (-52)).
Proof.
  intros H. unfold int_truediv.
  destruct n as [|p|p]; try lia.
  replace (Z.pos p =? 0) with false by reflexivity.
  unfold exact_int. rewrite SFdiv_self. reflexivity.
Qed.

Lemma int_truediv_number m n : 0 <= m <= n -> 0 < n ->
  exists q, int_truediv m n = Ok q /\ is_number q = true.
Proof.
  intros Hm Hn. unfold int_truediv.
  destruct n as [|n|n]; try lia.
  replace (Z.pos n =? 0) with false by reflexivity.
  destruct m as [|m|m]; try lia.
  - exists (S754_zero false). split; reflexivity.
  - pose proof (SFdiv_le_number m n ltac:(lia)) as H.
    unfold exact_int.
    destruct (SFdiv prec emax _ _) as [s| | |s mq eq] eqn:E; try discriminate;
    eexists; split; reflexivity.
Qed.

Lemma float_mul_100_not_nan q : is_number q = true ->
  is_nan (float_mul q (float_of_int 100)) = false.
Proof.
  destruct q as [s| | |s m e]; try discriminate; intros _.
  - reflexivity.
  - unfold float_mul.
    change (float_of_int 100) with (S754_finite false 7036874417766400 (-46)).
    unfold SFmul. apply binary_round_aux_not_nan. apply Pos2Z.is_nonneg.
Qed.

Lemma SFltb_of_not_SFleb (r : float) (my : positive) (ey : Z) :
  is_nan r = false ->
  SFleb (S754_finite false my ey) r = false ->
  SFltb r (S754_finite false my ey) = true.
Proof.
  unfold SFleb, SFltb, SFcompare.
  destruct r as [s|s| |s m e]; try discriminate; intros _.
  - reflexivity.
  - destruct s; [reflexivity|discriminate].
  - destruct s; [reflexivity|].
    rewrite (Z.compare_antisym e ey).
    destruct (e ?= ey) eqn:E; cbn [CompOpp]; try discriminate; try reflexivity.
    pose proof (Pos.compare_cont_antisym m my Eq) as Ha. cbn [CompOpp] in Ha. rewrite <- Ha.
    destruct (Pos.compare_cont Eq m my); cbn [CompOpp]; try discriminate; reflexivity.
Qed.

Lemma float_lt_of_not_ge r : is_nan r = false ->
  float_ge r threshold = false -> float_lt r threshold = true.
Proof.
  change threshold with (S754_finite false 6825768185233408 (-46)).
  apply SFltb_of_not_SFleb.
Qed.

Lemma SFmul_comm (x y : float) : SFmul prec emax x y = SFmul prec emax y x.
Proof.
  destruct x as [sx|sx| |sx mx ex], y as [sy|sy| |sy my ey]; simpl;
    rewrite ?(xorb_comm sx sy); try reflexivity.
  rewrite (Pos.mul_comm mx my), (Z.add_comm ex ey). reflexivity.
Qed.

(* ================================================================= *)
(** ** Facts on the identity score *)

Lemma sum_from (l : list Z) (acc : Z) : fold_left Z.add l acc = acc + sum l.
Proof.
  unfold sum. revert acc. induction l as [|x l IH]; intros acc; simpl.
  - lia.
  - rewrite IH, (IH x). lia.
Qed.

Lemma sum_ones {A} (l : list A) : sum (map (fun _ => 1) l) = Z.of_nat (List.length l).
Proof.
  induction l as [|x l IH].
  - reflexivity.
  - unfold sum in *. cbn [map fold_left List.length].
    rewrite sum_from. unfold sum. rewrite IH. lia.
Qed.

Lemma length_list_ascii (s : string) :
  List.length (list_ascii_of_string s) = String.length s.
Proof. induction s; simpl; congruence. Qed.

Lemma count_matches_length (a b : string) :
  count_matches a b
  = Z.of_nat (List.length (filter (fun '(x, y) => Ascii.eqb x y) (zip a b))).
Proof. unfold count_matches. apply sum_ones. Qed.

Lemma count_matches_cons (x y : ascii) (a b : string) :
  count_matches (String x a) (String y b)
  = (if Ascii.eqb x y then 1 else 0) + count_matches a b.
Proof.
  rewrite !count_matches_length. unfold zip. cbn [list_ascii_of_string combine filter].
  destruct (Ascii.eqb x y); cbn [List.length]; lia.
Qed.

Lemma count_matches_bounds (a b : string) : 0 <= count_matches a b <= len a.
Proof.
  revert b. induction a as [|x a IH]; intros b.
  - rewrite count_matches_length. unfold zip, len. simpl. lia.
  - destruct b as [|y b].
    + rewrite count_matches_length. unfold zip, len. simpl. lia.
    + rewrite count_matches_cons. specialize (IH b). unfold len in *.
      cbn [String.length]. destruct (Ascii.eqb x y); lia.
Qed.

Lemma count_matches_self (a : string) : count_matches a a = len a.
Proof.
  induction a as [|x a IH].
  - reflexivity.
  - rewrite count_matches_cons, IH, Ascii.eqb_refl. unfold len.
    cbn [String.length]. lia.
Qed.

Lemma count_matches_sym (a b : string) : count_matches a b = count_matches b a.
Proof.
  revert b. induction a as [|x a IH]; intros [|y b]; try reflexivity.
  rewrite !count_matches_cons, IH, (Ascii.eqb_sym x y). reflexivity.
Qed.

Lemma filter_length_map {A B} (f : B -> bool) (g : A -> B) (l : list A) :
  List.length (filter f (map g l)) = List.length (filter (fun x => f (g x)) l).
Proof.
  induction l as [|x l IH]; simpl; [reflexivity|].
  destruct (f (g x)); simpl; congruence.
Qed.

Lemma matching_columns_cons (x y : ascii) (a b : string) :
  matching_columns (String x a) (String y b)
  = (if Ascii.eqb x y then 1 else 0) + matching_columns a b.
Proof.
  unfold matching_columns.
  change (String.length (String x a)) with (S (String.length a)).
  change (seq 0 (S (String.length a))) with (0%nat :: seq 1 (String.length a)).
  rewrite <- seq_shift.
  change (filter (column_equal (String x a) (String y b))
                 (0%nat :: map S (seq 0 (String.length a))))
    with (if Ascii.eqb x y
          then 0%nat :: filter (column_equal (String x a) (String y b))
                               (map S (seq 0 (String.length a)))
          else filter (column_equal (String x a) (String y b))
                      (map S (seq 0 (String.length a)))).
  assert (E : List.length (filter (column_equal (String x a) (String y b))
                                  (map S (seq 0 (String.length a))))
              = List.length (filter (column_equal a b) (seq 0 (String.length a)))).
  { rewrite filter_length_map. reflexivity. }
  destruct (Ascii.eqb x y); cbn [List.length]; rewrite E; lia.
Qed.

Lemma matching_columns_nil_r (a : string) : matching_columns a EmptyString = 0.
Proof.
  unfold matching_columns.
  rewrite (filter_ext (column_equal a EmptyString) (fun _ => false)).
  - induction (seq 0 (String.length a)); simpl; auto.
  - intros i. unfold column_equal. destruct (String.get i a); destruct i; reflexivity.
Qed.

Lemma count_matches_columns (a b : string) : count_matches a b = matching_columns a b.
Proof.
  revert b. induction a as [|x a IH]; intros b.
  - reflexivity.
  - destruct b as [|y b].
    + rewrite matching_columns_nil_r. reflexivity.
    + rewrite count_matches_cons, matching_columns_cons, IH. reflexivity.
Qed.

Lemma len_nonneg (s : string) : 0 <= len s.
Proof. unfold len. lia. Qed.

Lemma len_zero (s : string) : len s = 0 -> s = EmptyString.
Proof. destruct s; [reflexivity|]. unfold len. simpl. lia. Qed.

Lemma get_identity_number (a b : string) : a <> EmptyString ->
  exists q, int_truediv (count_matches a b) (len a) = Ok q
            /\ is_number q = true
            /\ get_identity (a, b) = Ok (float_mul q (float_of_int 100)).
Proof.
  intros Ha.
  assert (Hl : 0 < len a).
  { pose proof (len_nonneg a). destruct (Z.eq_dec (len a) 0) as [E|E]; [|lia].
    apply len_zero in E. contradiction. }
  destruct (int_truediv_number (count_matches a b) (len a)
              (count_matches_bounds a b) Hl) as [q [Hq Hn]].
  exists q. repeat split; try assumption.
  unfold get_identity. rewrite Hq. reflexivity.
Qed.

Lemma get_identity_not_nan (al : string * string) (r : float) :
  get_identity al = Ok r -> is_nan r = false.
Proof.
  destruct al as [a b]. intros H.
  destruct a as [|x a].
  - discriminate H.
  - destruct (get_identity_number (String x a) b) as [q [_ [Hn Hg]]]; [discriminate|].
    rewrite Hg in H. injection H as <-. apply float_mul_100_not_nan. assumption.
Qed.

(** C2. For two aligned strings of equal length, [get_identity] returns 100
    times the number of columns [i] with [alignedA[i] == alignedB[i]] divided
    by the length of [alignedA]. Every column, a gap column too, adds one to
    the denominator, and adds one to the count exactly when its two
    characters are the same. *)
Theorem get_identity_formula (alignedA alignedB : string) :
  String.length alignedA = String.length alignedB ->
  get_identity (alignedA, alignedB)
  = percentage (matching_columns alignedA alignedB) (len alignedA)
  /\ forall x y : ascii,
       matching_columns (String x alignedA) (String y alignedB)
       = (if Ascii.eqb x y then 1 else 0) + matching_columns alignedA alignedB
       /\ len (String x alignedA) = 1 + len alignedA.
Proof.
  intros _. split.
  - unfold get_identity, percentage. rewrite count_matches_columns.
    destruct (int_truediv _ _) as [q|e]; [|reflexivity].
    cbn [try_bind]. unfold float_mul. rewrite SFmul_comm. reflexivity.
  - intros x y. split.
    + apply matching_columns_cons.
    + unfold len. cbn [String.length]. lia.
Qed.

Lemma get_identity_formula_witness :
  get_identity ("AC-T", "A-GT") = percentage (matching_columns "AC-T" "A-GT") (len "AC-T")
  /\ percentage 2 4 = Ok (float_of_int 50).
Proof.
  split.
  - apply (get_identity_formula "AC-T" "A-GT"). reflexivity.
  - vm_compute. reflexivity.
Defined.

(** C10. [get_identity] divides by the length of the first aligned string
    without a guard: it raises [ZeroDivisionError] when that string is
    empty, so on the empty alignment. When the first string has length at
    least 1 it returns a float, and the identity of a non-empty string
    against itself is 100; the empty self-alignment has no identity. *)
Theorem get_identity_division (alignedB : string) :
  get_identity (EmptyString, alignedB) = Raise ZeroDivisionError
  /\ (forall alignedA, 1 <= len alignedA ->
        exists r, get_identity (alignedA, alignedB) = Ok r /\ is_nan r = false)
  /\ (forall A, 1 <= len A -> get_identity (A, A) = Ok (float_of_int 100))
  /\ get_identity (EmptyString, EmptyString) <> Ok (float_of_int 100).
Proof.
  split; [reflexivity|]. split; [|split].
  - intros a Ha.
    destruct (get_identity_number a alignedB) as [q [_ [Hn Hg]]].
    + intros ->. unfold len in Ha. simpl in Ha. lia.
    + eexists. split; [exact Hg|]. apply float_mul_100_not_nan. assumption.
  - intros A HA. unfold get_identity.
    rewrite count_matches_self, int_truediv_self by lia.
    vm_compute. reflexivity.
  - discriminate.
Qed.

Lemma get_identity_division_witness :
  get_identity ("ACGT", "ACGT") = Ok (float_of_int 100).
Proof.
  destruct (get_identity_division "ACGT") as [_ [_ [H _]]].
  apply H. vm_compute. discriminate.
Defined.

(* ================================================================= *)
(** ** Facts on strings and on [strip] *)

Lemma append_nil_r (s : string) : (s ++ EmptyString)%string = s.
Proof. induction s; simpl; congruence. Qed.

Lemma append_assoc (s1 s2 s3 : string) :
  ((s1 ++ s2) ++ s3)%string = (s1 ++ (s2 ++ s3))%string.
Proof. induction s1; simpl; congruence. Qed.

Lemma length_append (s1 s2 : string) :
  String.length (s1 ++ s2) = (String.length s1 + String.length s2)%nat.
Proof. induction s1; simpl; congruence. Qed.

Lemma concat_empty_cons (s : string) (l : list string) :
  String.concat EmptyString (s :: l) = (s ++ String.concat EmptyString l)%string.
Proof. destruct l; simpl; [rewrite append_nil_r|]; reflexivity. Qed.

Lemma concat_empty_app (l1 l2 : list string) :
  String.concat EmptyString (l1 ++ l2)
  = (String.concat EmptyString l1 ++ String.concat EmptyString l2)%string.
Proof.
  induction l1 as [|s l1 IH].
  - reflexivity.
  - rewrite <- app_comm_cons, !concat_empty_cons, IH, append_assoc. reflexivity.
Qed.

Lemma lstrip_split (s : string) :
  exists ws, s = (ws ++ lstrip s)%string
             /\ all_space ws = true
             /\ head_is_space (lstrip s) = false.
Proof.
  induction s as [|c s [ws [E [Hw Hh]]]].
  - exists EmptyString. repeat split.
  - simpl. destruct (isspace c) eqn:Hc.
    + exists (String c ws). repeat split.
      * simpl. congruence.
      * unfold all_space in *. simpl. rewrite Hc. assumption.
      * assumption.
    + exists EmptyString. repeat split. simpl. assumption.
Qed.

Lemma rstrip_split (s : string) :
  exists ws, s = (rstrip s ++ ws)%string
             /\ all_space ws = true
             /\ last_is_space (rstrip s) = false
             /\ (head_is_space s = false -> head_is_space (rstrip s) = false).
Proof.
  induction s as [|c s [ws [E [Hw [Hl Hh]]]]].
  - exists EmptyString. repeat split.
  - cbn [rstrip]. destruct (rstrip s) as [|d r] eqn:Hr.
    + destruct (isspace c) eqn:Hc.
      * exists (String c ws). unfold all_space in *. simpl in *.
        rewrite Hc. repeat split; simpl; first [congruence | assumption].
      * exists ws. simpl in *. repeat split; first [congruence | assumption].
    + exists ws. simpl in *. repeat split; first [congruence | assumption | tauto].
Qed.

Lemma strip_split (line : string) :
  exists before after,
    line = (before ++ strip line ++ after)%string
    /\ all_space before = true /\ all_space after = true
    /\ head_is_space (strip line) = false
    /\ last_is_space (strip line) = false.
Proof.
  destruct (lstrip_split line) as [before [E1 [H1 Hh]]].
  destruct (rstrip_split (lstrip line)) as [after [E2 [H2 [Hl Hh']]]].
  exists before, after. unfold strip. repeat split; auto. congruence.
Qed.

(* ================================================================= *)
(** ** Facts on [read_fasta] *)

Lemma join_block_snoc (block : list string) (line : string) :
  join_block (block ++ [line]) = (join_block block ++ strip line)%string.
Proof.
  unfold join_block. rewrite map_app, concat_empty_app. simpl.
  reflexivity.
Qed.

Lemma read_loop_blocks (m : Z) (lines : list string) :
  forall (current : list string) (yielded : list string),
  exists flushed last_block,
    record_blocks lines current = flushed ++ [last_block]
    /\ fold_left (read_fasta_line m) lines (join_block current, yielded)
       = (join_block last_block,
          yielded ++ filter (long_enough m) (map join_block flushed)).
Proof.
  induction lines as [|line rest IH]; intros current yielded.
  - exists [], current. split; [reflexivity|]. simpl. rewrite app_nil_r. reflexivity.
  - cbn [record_blocks fold_left]. unfold read_fasta_line at 2.
    destruct (startswith line ">") eqn:Hh.
    + destruct (IH [] (if len (join_block current) >=? m
                       then yielded ++ [join_block current] else yielded))
        as [flushed [lb [E1 E2]]].
      exists (current :: flushed), lb. split.
      * rewrite E1. reflexivity.
      * change EmptyString with (join_block []). rewrite E2. f_equal.
        cbn [map filter]. unfold long_enough at 2.
        destruct (len (join_block current) >=? m); [rewrite <- app_assoc|]; reflexivity.
    + rewrite <- join_block_snoc. apply IH.
Qed.

Lemma read_fasta_records (lines : list string) (m : Z) :
  exists flushed final,
    fasta_records lines = flushed ++ [final]
    /\ final = fst (fold_left (read_fasta_line m) lines (EmptyString, []))
    /\ read_fasta lines m
       = filter (long_enough m) flushed ++ (if long_enough m final then [final] else []).
Proof.
  destruct (read_loop_blocks m lines [] []) as [flushed [lb [E1 E2]]].
  change (join_block []) with EmptyString in E2.
  exists (map join_block flushed), (join_block lb). split; [|split].
  - unfold fasta_records. rewrite E1, map_app. reflexivity.
  - rewrite E2. reflexivity.
  - unfold read_fasta. rewrite E2.
    change (len (join_block lb) >=? m) with (long_enough m (join_block lb)).
    destruct (long_enough m (join_block lb)); cbn [app]; rewrite ?app_nil_r; reflexivity.
Qed.

Lemma read_fasta_filter (lines : list string) (m : Z) :
  read_fasta lines m = filter (long_enough m) (fasta_records lines).
Proof.
  destruct (read_fasta_records lines m) as [flushed [final [E1 [_ E2]]]].
  rewrite E1, E2, filter_app. reflexivity.
Qed.

(** C5. Every sequence yielded by [read_fasta] has length at least
    [minseqlen]. The yielded sequences are the records of the text with the
    shorter ones dropped, and the sequence left in the accumulator at the
    end of the stream goes through the same filter as the sequences flushed
    by a header. *)
Theorem read_fasta_min_length (lines : text_file) (minseqlen : Z) :
  Forall (fun sequence => len sequence >= minseqlen) (read_fasta lines minseqlen)
  /\ read_fasta lines minseqlen = filter (long_enough minseqlen) (fasta_records lines)
  /\ exists flushed final,
       fasta_records lines = flushed ++ [final]
       /\ final = fst (fold_left (read_fasta_line minseqlen) lines (EmptyString, []))
       /\ read_fasta lines minseqlen
          = filter (long_enough minseqlen) flushed
            ++ (if long_enough minseqlen final then [final] else []).
Proof.
  split; [|split].
  - rewrite read_fasta_filter. apply Forall_forall. intros s Hs.
    apply filter_In in Hs. destruct Hs as [_ Hs]. unfold long_enough in Hs.
    apply Z.geb_le in Hs. lia.
  - apply read_fasta_filter.
  - apply read_fasta_records.
Qed.

(** C6, as stated, fails: a body line is not appended with only its line
    terminator removed. For the line [" AC<TAB><LF>"] the reader appends
    ["AC"], without the leading space and the trailing tab. *)
Lemma read_fasta_drops_spaces_and_tabs :
  startswith padded_line ">" = false
  /\ remove_line_terminators padded_line = (" AC" ++ tab)%string
  /\ read_fasta_line 1 (EmptyString, []) padded_line = ("AC", [])
  /\ read_fasta [(">r1" ++ newline)%string; padded_line] 1 = ["AC"]
  /\ ~ (forall (minseqlen : Z) (sequence : string) (yielded : list string) (line : string),
          startswith line ">" = false ->
          read_fasta_line minseqlen (sequence, yielded) line
          = ((sequence ++ remove_line_terminators line)%string, yielded)).
Proof.
  repeat split; try reflexivity.
  intros H. specialize (H 1 EmptyString [] padded_line eq_refl).
  vm_compute in H. discriminate H.
Qed.

(** C6, amended. A line that does not start with [>] is appended to the
    accumulating sequence after [strip()]: every leading and trailing
    whitespace character is removed, the line terminator among them, and
    the characters from the first to the last non-whitespace character are
    kept as they are. Nothing is yielded on such a line. *)
Theorem read_fasta_body_line
  (minseqlen : Z) (sequence : string) (yielded : list string) (line : string) :
  startswith line ">" = false ->
  read_fasta_line minseqlen (sequence, yielded) line
  = ((sequence ++ strip line)%string, yielded)
  /\ exists before after,
       line = (before ++ strip line ++ after)%string
       /\ all_space before = true /\ all_space after = true
       /\ head_is_space (strip line) = false
       /\ last_is_space (strip line) = false.
Proof.
  intros H. split.
  - unfold read_fasta_line. rewrite H. reflexivity.
  - apply strip_split.
Qed.

Lemma read_fasta_body_line_witness :
  read_fasta_line 1 ("GG", []) padded_line = ("GGAC", [])
  /\ strip padded_line = "AC".
Proof.
  split.
  - apply (read_fasta_body_line 1 "GG" [] padded_line). reflexivity.
  - reflexivity.
Defined.

(* ================================================================= *)
(** ** Facts on [Counter], [most_common] and dereplication *)

Lemma counter_incr_keys (k : string) (c : counter) :
  map fst (counter_incr k c)
  = if existsb (String.eqb k) (map fst c) then map fst c else map fst c ++ [k].
Proof.
  induction c as [|[k' n] c IH]; [reflexivity|].
  cbn [counter_incr map fst existsb]. rewrite (String.eqb_sym k k').
  destruct (String.eqb k' k) eqn:E; [reflexivity|].
  cbn [map fst orb]. rewrite IH.
  destruct (existsb (String.eqb k) (map fst c)); reflexivity.
Qed.

Lemma existsb_eqb_In (k : string) (l : list string) :
  existsb (String.eqb k) l = true <-> In k l.
Proof.
  rewrite existsb_exists. split.
  - intros [x [Hx E]]. apply String.eqb_eq in E. subst. assumption.
  - intros H. exists k. split; [assumption|apply String.eqb_refl].
Qed.

Lemma counter_incr_NoDup (k : string) (c : counter) :
  NoDup (map fst c) -> NoDup (map fst (counter_incr k c)).
Proof.
  intros H. rewrite counter_incr_keys.
  destruct (existsb (String.eqb k) (map fst c)) eqn:E; [assumption|].
  apply NoDup_app; [assumption|repeat constructor; intros []|].
  intros x Hx [<-|[]].
  apply existsb_eqb_In in Hx. congruence.
Qed.

Lemma fold_counter_NoDup (items : list string) (c : counter) :
  NoDup (map fst c) ->
  NoDup (map fst (fold_left (fun c k => counter_incr k c) items c)).
Proof.
  revert c. induction items as [|k items IH]; intros c H; simpl.
  - assumption.
  - apply IH, counter_incr_NoDup, H.
Qed.

Lemma Counter_NoDup (items : list string) : NoDup (map fst (Counter items)).
Proof. apply fold_counter_NoDup. constructor. Qed.

Lemma insert_desc_perm (x : string * Z) (l : list (string * Z)) :
  Permutation (insert_desc x l) (x :: l).
Proof.
  induction l as [|y l IH]; simpl.
  - apply Permutation_refl.
  - destruct (snd y >? snd x).
    + apply perm_trans with (y :: x :: l); [apply perm_skip, IH|apply perm_swap].
    + apply Permutation_refl.
Qed.

Lemma sorted_desc_perm (l : list (string * Z)) : Permutation (sorted_desc l) l.
Proof.
  induction l as [|x l IH]; simpl.
  - apply perm_nil.
  - apply perm_trans with (x :: sorted_desc l);
      [apply insert_desc_perm|apply perm_skip, IH].
Qed.

Lemma insert_desc_sorted (x : string * Z) (l : list (string * Z)) :
  StronglySorted count_ge l -> StronglySorted count_ge (insert_desc x l).
Proof.
  induction 1 as [|y l Hs IH Hy]; simpl.
  - repeat constructor.
  - destruct (snd y >? snd x) eqn:E.
    + constructor; [assumption|].
      apply (Permutation_Forall (Permutation_sym (insert_desc_perm x l))).
      constructor; [|assumption].
      apply Z.gtb_lt in E. unfold count_ge. lia.
    + assert (Hxy : count_ge x y).
      { unfold count_ge. destruct (Z.gtb_spec (snd y) (snd x)); [discriminate|lia]. }
      constructor; [constructor; assumption|].
      constructor; [assumption|].
      eapply Forall_impl; [|exact Hy]. unfold count_ge in *. intros; lia.
Qed.

Lemma sorted_desc_sorted (l : list (string * Z)) : StronglySorted count_ge (sorted_desc l).
Proof.
  induction l as [|x l IH]; simpl.
  - constructor.
  - apply insert_desc_sorted, IH.
Qed.

Lemma filter_sorted {A} (R : A -> A -> Prop) (f : A -> bool) (l : list A) :
  StronglySorted R l -> StronglySorted R (filter f l).
Proof.
  induction 1 as [|x l Hs IH Hx]; simpl.
  - constructor.
  - destruct (f x); [|assumption].
    constructor; [assumption|].
    apply Forall_forall. intros y Hy. apply filter_In in Hy.
    rewrite Forall_forall in Hx. apply Hx, Hy.
Qed.

Lemma filter_NoDup_keys {A B} (f : A * B -> bool) (l : list (A * B)) :
  NoDup (map fst l) -> NoDup (map fst (filter f l)).
Proof.
  induction l as [|x l IH]; simpl; intros H.
  - constructor.
  - inversion H as [|k ks Hk Hks]; subst.
    destruct (f x); [|apply IH, Hks].
    simpl. constructor; [|apply IH, Hks].
    intros Hin. apply Hk. apply in_map_iff in Hin.
    destruct Hin as [y [Ey Hy]]. apply filter_In in Hy.
    apply in_map_iff. exists y. tauto.
Qed.

Lemma most_common_NoDup (c : counter) :
  NoDup (map fst c) -> NoDup (map fst (most_common c)).
Proof.
  intros H. unfold most_common.
  apply (Permutation_NoDup (l := map fst c)); [|assumption].
  apply Permutation_map, Permutation_sym, sorted_desc_perm.
Qed.

Lemma dereplication_sorted (lines : text_file) (minseqlen mincount : Z) :
  StronglySorted count_ge (dereplication_fulllength lines minseqlen mincount).
Proof.
  unfold dereplication_fulllength. apply filter_sorted, sorted_desc_sorted.
Qed.

(** C3. Every candidate yielded by [dereplication_fulllength] has a count
    of at least [mincount]; the counts are non-increasing along the stream
    (each candidate's count is at least the count of every later one); and
    no sequence is yielded twice. *)
Theorem dereplication_fulllength_stream (lines : text_file) (minseqlen mincount : Z) :
  Forall (fun c : candidate => snd c >= mincount)
         (dereplication_fulllength lines minseqlen mincount)
  /\ StronglySorted (fun a b : candidate => snd a >= snd b)
                    (dereplication_fulllength lines minseqlen mincount)
  /\ NoDup (map fst (dereplication_fulllength lines minseqlen mincount)).
Proof.
  split; [|split].
  - unfold dereplication_fulllength. apply Forall_forall. intros [s n] H.
    apply filter_In in H. destruct H as [_ H]. apply Z.geb_le in H. simpl. lia.
  - apply dereplication_sorted.
  - unfold dereplication_fulllength.
    apply filter_NoDup_keys, most_common_NoDup, Counter_NoDup.
Qed.

(* ================================================================= *)
(** ** Facts on the greedy clustering *)

Lemma ForallOrdPairs_snoc {A} (R : A -> A -> Prop) (l : list A) (x : A) :
  ForallOrdPairs R l -> Forall (fun y => R y x) l -> ForallOrdPairs R (l ++ [x]).
Proof.
  induction 1 as [|a l Ha Hl IH]; intros Hx; simpl.
  - repeat constructor.
  - inversion Hx; subst. constructor.
    + apply Forall_app. split; [assumption|]. repeat constructor. assumption.
    + apply IH. assumption.
Qed.

Lemma ForallOrdPairs_middle {A} (R : A -> A -> Prop) (l1 l2 : list A) (x : A) :
  ForallOrdPairs R (l1 ++ x :: l2) ->
  Forall (fun y => R y x) l1 /\ ForallOrdPairs R l1.
Proof.
  induction l1 as [|a l1 IH]; simpl; intros H.
  - split; constructor.
  - inversion H as [|b l Hb Hl]; subst.
    destruct (IH Hl) as [H1 H2]. split.
    + constructor; [|assumption].
      rewrite Forall_forall in Hb. apply Hb, in_elt.
    + constructor; [|assumption].
      apply Forall_app in Hb. tauto.
Qed.

Lemma ForallOrdPairs_nth {A} (R : A -> A -> Prop) (l : list A) :
  ForallOrdPairs R l ->
  forall (i j : nat) (a b : A),
    (i < j)%nat -> nth_error l i = Some a -> nth_error l j = Some b -> R a b.
Proof.
  induction 1 as [|x l Hx Hl IH]; intros i j a b Hij Hi Hj.
  - destruct i; discriminate.
  - destruct j as [|j]; [lia|]. simpl in Hj. destruct i as [|i].
    + simpl in Hi. injection Hi as <-.
      rewrite Forall_forall in Hx. apply Hx. eapply nth_error_In, Hj.
    + simpl in Hi. apply (IH i j); [lia|assumption|assumption].
Qed.

Lemma sorted_ForallOrdPairs {A} (R : A -> A -> Prop) (l : list A) :
  StronglySorted R l -> ForallOrdPairs R l.
Proof.
  induction 1 as [|x l Hs IH Hx]; constructor; assumption.
Qed.

Section ClusteringFacts.

Variable global_align : string -> string -> result (string * string).

Local Abbreviation scan := (scan_otus global_align).
Local Abbreviation visit := (visit_candidate global_align).
Local Abbreviation cluster := (cluster_candidates global_align).
Local Abbreviation kept := (kept_by global_align).

Lemma scan_cons (sequence otu : string) (n : Z) (rest : list OTU) (calls : list align_call) :
  scan sequence ((otu, n) :: rest) calls
  = match identity_of global_align sequence otu with
    | Ok identity =>
        if float_ge identity threshold then (Ok false, calls ++ [(sequence, otu)])
        else scan sequence rest (calls ++ [(sequence, otu)])
    | Raise e => (Raise e, calls ++ [(sequence, otu)])
    end.
Proof.
  unfold identity_of. cbn [scan_otus]. unfold bind, nw_global_align, lift.
  destruct (global_align sequence otu) as [al|e]; [|reflexivity].
  cbn [try_bind]. destruct (get_identity al) as [r|e]; [|reflexivity].
  unfold threshold. destruct (float_ge r (float_of_int 97)); reflexivity.
Qed.

Lemma scan_all_kept (sequence : string) (otus : list OTU) :
  Forall (kept sequence) otus ->
  forall calls, scan sequence otus calls = (Ok true, calls ++ calls_against sequence otus).
Proof.
  induction 1 as [|[otu n] rest Ho Hr IH]; intros calls.
  - unfold calls_against. simpl. rewrite app_nil_r. reflexivity.
  - rewrite scan_cons. unfold kept_by, kept_apart in Ho. simpl in Ho.
    destruct (identity_of global_align sequence otu) as [r|e]; [|discriminate].
    destruct (float_ge r threshold); [discriminate|].
    rewrite IH. unfold calls_against. simpl. rewrite <- app_assoc. reflexivity.
Qed.

Lemma scan_first_absorbed (sequence : string) (pre : list OTU) (o : OTU) (post : list OTU) :
  Forall (kept sequence) pre ->
  absorbed_by global_align sequence (fst o) = true ->
  forall calls,
    scan sequence (pre ++ o :: post) calls
    = (Ok false, calls ++ calls_against sequence (pre ++ [o])).
Proof.
  intros Hpre Ho. induction Hpre as [|[otu n] rest Hk Hr IH]; intros calls.
  - destruct o as [otu n]. simpl app. rewrite scan_cons.
    unfold absorbed_by in Ho. simpl in Ho.
    destruct (identity_of global_align sequence otu) as [r|e]; [|discriminate].
    rewrite Ho. reflexivity.
  - rewrite <- app_comm_cons, scan_cons. unfold kept_by, kept_apart in Hk. simpl in Hk.
    destruct (identity_of global_align sequence otu) as [r|e]; [|discriminate].
    destruct (float_ge r threshold); [discriminate|].
    rewrite IH. unfold calls_against. simpl. rewrite <- app_assoc. reflexivity.
Qed.

Lemma scan_first_raises (sequence : string) (pre : list OTU) (o : OTU) (post : list OTU)
  (e : exn) :
  Forall (kept sequence) pre ->
  identity_of global_align sequence (fst o) = Raise e ->
  forall calls,
    scan sequence (pre ++ o :: post) calls
    = (Raise e, calls ++ calls_against sequence (pre ++ [o])).
Proof.
  intros Hpre Ho. induction Hpre as [|[otu n] rest Hk Hr IH]; intros calls.
  - destruct o as [otu n]. simpl app. rewrite scan_cons. simpl in Ho.
    rewrite Ho. reflexivity.
  - rewrite <- app_comm_cons, scan_cons. unfold kept_by, kept_apart in Hk. simpl in Hk.
    destruct (identity_of global_align sequence otu) as [r|e']; [|discriminate].
    destruct (float_ge r threshold); [discriminate|].
    rewrite IH. unfold calls_against. simpl. rewrite <- app_assoc. reflexivity.
Qed.

(** The three ways a scan can go. *)
Lemma scan_cases (sequence : string) (otus : list OTU) :
  Forall (kept sequence) otus
  \/ exists pre o post,
       otus = pre ++ o :: post /\ Forall (kept sequence) pre
       /\ (absorbed_by global_align sequence (fst o) = true
           \/ exists e, identity_of global_align sequence (fst o) = Raise e).
Proof.
  induction otus as [|o otus IH].
  - left. constructor.
  - destruct (identity_of global_align sequence (fst o)) as [r|e] eqn:E.
    + destruct (float_ge r threshold) eqn:G.
      * right. exists [], o, otus. repeat split; [constructor|].
        left. unfold absorbed_by. rewrite E. assumption.
      * assert (Hk : kept sequence o).
        { unfold kept_by, kept_apart. rewrite E, G. reflexivity. }
        destruct IH as [IH|[pre [o' [post [E' [Hp Ho]]]]]].
        -- left. constructor; assumption.
        -- right. exists (o :: pre), o', post. subst otus.
           repeat split; [constructor; assumption|assumption].
    + right. exists [], o, otus. repeat split; [constructor|].
      right. exists e. assumption.
Qed.

Lemma scan_true_inv (sequence : string) (otus : list OTU) (calls calls' : list align_call) :
  scan sequence otus calls = (Ok true, calls') ->
  Forall (kept sequence) otus /\ calls' = calls ++ calls_against sequence otus.
Proof.
  intros H. destruct (scan_cases sequence otus) as [Hk|[pre [o [post [E [Hp [Ho|[e Ho]]]]]]]].
  - rewrite scan_all_kept in H by assumption. injection H as <-. tauto.
  - subst otus. rewrite scan_first_absorbed in H by assumption. discriminate.
  - subst otus. rewrite (scan_first_raises _ _ _ _ e) in H by assumption. discriminate.
Qed.

Lemma scan_false_inv (sequence : string) (otus : list OTU) (calls calls' : list align_call) :
  scan sequence otus calls = (Ok false, calls') ->
  exists pre o post,
    otus = pre ++ o :: post /\ Forall (kept sequence) pre
    /\ absorbed_by global_align sequence (fst o) = true
    /\ calls' = calls ++ calls_against sequence (pre ++ [o]).
Proof.
  intros H. destruct (scan_cases sequence otus) as [Hk|[pre [o [post [E [Hp [Ho|[e Ho]]]]]]]].
  - rewrite scan_all_kept in H by assumption. discriminate.
  - subst otus. rewrite scan_first_absorbed in H by assumption. injection H as <-.
    exists pre, o, post. tauto.
  - subst otus. rewrite (scan_first_raises _ _ _ _ e) in H by assumption. discriminate.
Qed.

Lemma visit_eq (sequence : string) (count : Z) (otus : list OTU) (calls : list align_call) :
  visit (sequence, count) otus calls
  = match scan sequence otus calls with
    | (Ok true, calls') => (Ok (otus ++ [(sequence, count)]), calls')
    | (Ok false, calls') => (Ok otus, calls')
    | (Raise e, calls') => (Raise e, calls')
    end.
Proof.
  unfold visit_candidate, bind, ret.
  destruct (scan_otus global_align sequence otus calls) as [[[]|e] calls']; reflexivity.
Qed.

Lemma cluster_cons (c : candidate) (rest : list candidate) (otus : list OTU)
  (calls : list align_call) :
  cluster (c :: rest) otus calls
  = match visit c otus calls with
    | (Ok otus', calls') => cluster rest otus' calls'
    | (Raise e, calls') => (Raise e, calls')
    end.
Proof. reflexivity. Qed.

Lemma cluster_app (c1 c2 : list candidate) :
  forall (otus : list OTU) (calls : list align_call),
    cluster (c1 ++ c2) otus calls
    = match cluster c1 otus calls with
      | (Ok mid, calls1) => cluster c2 mid calls1
      | (Raise e, calls1) => (Raise e, calls1)
      end.
Proof.
  induction c1 as [|c c1 IH]; intros otus calls.
  - reflexivity.
  - rewrite <- app_comm_cons, !cluster_cons.
    destruct (visit c otus calls) as [[otus'|e] calls']; [apply IH|reflexivity].
Qed.

(** A run of the loop does not depend on the calls made before it: it
    adds its own calls to the record. *)
Lemma scan_frame (sequence : string) (otus : list OTU) :
  forall calls,
    scan sequence otus calls
    = (fst (scan sequence otus []), calls ++ snd (scan sequence otus [])).
Proof.
  destruct (scan_cases sequence otus) as [Hk|[pre [o [post [E [Hp [Ho|[e Ho]]]]]]]];
    intros calls.
  - rewrite !scan_all_kept by assumption. reflexivity.
  - subst otus. rewrite !scan_first_absorbed by assumption. reflexivity.
  - subst otus. rewrite !(scan_first_raises _ _ _ _ e) by assumption. reflexivity.
Qed.

Lemma visit_frame (c : candidate) (otus : list OTU) :
  forall calls,
    visit c otus calls
    = (fst (visit c otus []), calls ++ snd (visit c otus [])).
Proof.
  intros calls. destruct c as [sequence count]. rewrite !visit_eq.
  rewrite (scan_frame sequence otus calls).
  destruct (scan sequence otus []) as [[[]|e] tr]; reflexivity.
Qed.

Lemma cluster_frame (candidates : list candidate) :
  forall otus calls,
    cluster candidates otus calls
    = (fst (cluster candidates otus []), calls ++ snd (cluster candidates otus [])).
Proof.
  induction candidates as [|c rest IH]; intros otus calls.
  - simpl. unfold ret. simpl. rewrite app_nil_r. reflexivity.
  - rewrite !cluster_cons. rewrite (visit_frame c otus calls).
    destruct (visit c otus []) as [[otus'|e] tr]; cbn [fst snd].
    + rewrite (IH otus' (calls ++ tr)), (IH otus' tr).
      cbn [fst snd]. rewrite app_assoc. reflexivity.
    + reflexivity.
Qed.

Lemma visit_cases (c : candidate) (otus otus' : list OTU) (calls calls' : list align_call) :
  visit c otus calls = (Ok otus', calls') ->
  (otus' = otus ++ [c] /\ Forall (kept (fst c)) otus
   /\ calls' = calls ++ calls_against (fst c) otus)
  \/ (otus' = otus
      /\ exists pre o post,
           otus = pre ++ o :: post /\ Forall (kept (fst c)) pre
           /\ absorbed_by global_align (fst c) (fst o) = true
           /\ calls' = calls ++ calls_against (fst c) (pre ++ [o])).
Proof.
  destruct c as [sequence count]. rewrite visit_eq.
  destruct (scan sequence otus calls) as [[[]|e] tr] eqn:E; intros H;
    [| |discriminate]; injection H as <- <-.
  - left. apply scan_true_inv in E. tauto.
  - right. apply scan_false_inv in E. tauto.
Qed.

Lemma cluster_extends (candidates : list candidate) :
  forall otus calls result calls',
    cluster candidates otus calls = (Ok result, calls') ->
    exists added, result = otus ++ added /\ subsequence added candidates.
Proof.
  induction candidates as [|c rest IH]; intros otus calls result calls' H.
  - injection H as <- <-. exists []. rewrite app_nil_r. split; constructor.
  - rewrite cluster_cons in H.
    destruct (visit c otus calls) as [[otus'|e] tr] eqn:E; [|discriminate].
    destruct (IH _ _ _ _ H) as [added [-> Hs]].
    apply visit_cases in E. destruct E as [[-> _]|[-> _]].
    + exists (c :: added). rewrite <- app_assoc. split; [reflexivity|].
      apply subsequence_keep. assumption.
    + exists added. split; [reflexivity|]. apply subsequence_skip. assumption.
Qed.

Lemma cluster_apart (candidates : list candidate) :
  forall otus calls result calls',
    ForallOrdPairs (fun oi oj => kept (fst oj) oi) otus ->
    cluster candidates otus calls = (Ok result, calls') ->
    ForallOrdPairs (fun oi oj => kept (fst oj) oi) result.
Proof.
  induction candidates as [|c rest IH]; intros otus calls result calls' Ha H.
  - injection H as <- <-. assumption.
  - rewrite cluster_cons in H.
    destruct (visit c otus calls) as [[otus'|e] tr] eqn:E; [|discriminate].
    apply (IH otus' tr result calls'); [|assumption].
    apply visit_cases in E. destruct E as [[-> [Hk _]]|[-> _]]; [|assumption].
    apply ForallOrdPairs_snoc; assumption.
Qed.

Lemma cluster_again (added : list OTU) :
  forall otus calls,
    ForallOrdPairs (fun oi oj => kept (fst oj) oi) (otus ++ added) ->
    fst (cluster added otus calls) = Ok (otus ++ added).
Proof.
  induction added as [|[sequence count] added IH]; intros otus calls H.
  - rewrite app_nil_r. reflexivity.
  - rewrite cluster_cons, visit_eq.
    destruct (ForallOrdPairs_middle _ _ _ _ H) as [Hk _].
    rewrite scan_all_kept by exact Hk.
    rewrite IH; rewrite <- app_assoc; [reflexivity|exact H].
Qed.

End ClusteringFacts.

Lemma subsequence_In {A} (l1 l2 : list A) (x : A) :
  subsequence l1 l2 -> In x l1 -> In x l2.
Proof.
  induction 1 as [|y l1 l2 H IH|y l1 l2 H IH]; simpl; intros Hx.
  - assumption.
  - right. apply IH, Hx.
  - destruct Hx as [->|Hx]; [left; reflexivity|right; apply IH, Hx].
Qed.

Lemma kept_apart_below (global_align : string -> string -> result (string * string))
  (sequence otu : string) :
  kept_apart global_align sequence otu = true ->
  exists alignment identity,
    global_align sequence otu = Ok alignment
    /\ get_identity alignment = Ok identity
    /\ float_lt identity (float_of_int 97) = true.
Proof.
  unfold kept_apart, identity_of.
  destruct (global_align sequence otu) as [al|e]; [|discriminate].
  cbn [try_bind]. destruct (get_identity al) as [r|e] eqn:E; [|discriminate].
  intros H. exists al, r. split; [reflexivity|split; [exact E|]].
  apply float_lt_of_not_ge.
  - apply (get_identity_not_nan al). exact E.
  - destruct (float_ge r threshold); [discriminate|reflexivity].
Qed.

(** C1. When the turn of a candidate comes and the OTU list is
    [pre ++ o :: post], where every OTU of [pre] gives an identity below 97
    and [o] is the first to give an identity of at least 97, the candidate
    is discarded: the OTU list, counts included, is left as it is. The
    aligner was called on the OTUs of [pre] and on [o], in insertion order,
    and on no OTU of [post]. *)
Theorem first_match_discards
  (global_align : string -> string -> result (string * string))
  (lines : text_file) (minseqlen mincount chunk_size kmer_size : Z)
  (before after : list candidate) (sequence : string) (count : Z)
  (pre post : list OTU) (o : OTU) (calls calls1 : list align_call) :
  dereplication_fulllength lines minseqlen mincount
  = before ++ (sequence, count) :: after ->
  cluster_candidates global_align before [] calls = (Ok (pre ++ o :: post), calls1) ->
  Forall (kept_by global_align sequence) pre ->
  absorbed_by global_align sequence (fst o) = true ->
  visit_candidate global_align (sequence, count) (pre ++ o :: post) calls1
  = (Ok (pre ++ o :: post), calls1 ++ calls_against sequence (pre ++ [o]))
  /\ abundance_greedy_clustering global_align lines minseqlen mincount
       chunk_size kmer_size calls
     = cluster_candidates global_align after (pre ++ o :: post)
         (calls1 ++ calls_against sequence (pre ++ [o])).
Proof.
  intros Hd Hb Hpre Ho.
  assert (Hv : visit_candidate global_align (sequence, count) (pre ++ o :: post) calls1
               = (Ok (pre ++ o :: post), calls1 ++ calls_against sequence (pre ++ [o]))).
  { rewrite visit_eq, scan_first_absorbed by assumption. reflexivity. }
  split; [exact Hv|].
  unfold abundance_greedy_clustering. rewrite Hd, cluster_app, Hb, cluster_cons, Hv.
  reflexivity.
Qed.

Lemma first_match_discards_witness :
  visit_candidate pad_align (seq_b, 1) [(seq_c, 4); (seq_a, 3); (seq_d, 2)]
    [(seq_a, seq_c); (seq_d, seq_c); (seq_d, seq_a)]
  = (Ok [(seq_c, 4); (seq_a, 3); (seq_d, 2)],
     [(seq_a, seq_c); (seq_d, seq_c); (seq_d, seq_a)] ++ [(seq_b, seq_c); (seq_b, seq_a)])
  /\ abundance_greedy_clustering pad_align sample_file 40 1 100 8 []
     = cluster_candidates pad_align [] [(seq_c, 4); (seq_a, 3); (seq_d, 2)]
         ([(seq_a, seq_c); (seq_d, seq_c); (seq_d, seq_a)]
            ++ calls_against seq_b ([(seq_c, 4)] ++ [(seq_a, 3)])).
Proof.
  apply (first_match_discards pad_align sample_file 40 1 100 8
           [(seq_c, 4); (seq_a, 3); (seq_d, 2)] [] seq_b 1
           [(seq_c, 4)] [(seq_d, 2)] (seq_a, 3) []
           [(seq_a, seq_c); (seq_d, seq_c); (seq_d, seq_a)]).
  - vm_compute. reflexivity.
  - vm_compute. reflexivity.
  - repeat constructor.
  - vm_compute. reflexivity.
Defined.

(** C4. The OTU list changes only by appending. A candidate that matches
    no OTU is appended, with its sequence and count, after the last OTU;
    any other turn that ends leaves the list as it is. So the list held
    after any part of the candidate stream is a prefix of the final list:
    no OTU is moved, removed or modified. The first OTU of a non-empty
    result is the first candidate of the stream, and no other OTU has a
    larger count. *)
Theorem otu_list_append_only
  (global_align : string -> string -> result (string * string)) :
  (forall (c : candidate) (otus : list OTU) (calls : list align_call),
     Forall (kept_by global_align (fst c)) otus ->
     fst (visit_candidate global_align c otus calls) = Ok (otus ++ [c]))
  /\ (forall (c : candidate) (otus otus' : list OTU) (calls calls' : list align_call),
        visit_candidate global_align c otus calls = (Ok otus', calls') ->
        otus' = otus ++ [c] \/ otus' = otus)
  /\ (forall (seen rest : list candidate) (otus final : list OTU)
             (calls calls' : list align_call),
        cluster_candidates global_align (seen ++ rest) otus calls = (Ok final, calls') ->
        exists current calls1 added,
          cluster_candidates global_align seen otus calls = (Ok current, calls1)
          /\ final = otus ++ added
          /\ exists later, final = current ++ later)
  /\ (forall (lines : text_file) (minseqlen mincount chunk_size kmer_size : Z)
             (calls calls' : list align_call) (first : OTU) (others : list OTU),
        abundance_greedy_clustering global_align lines minseqlen mincount
          chunk_size kmer_size calls = (Ok (first :: others), calls') ->
        hd_error (dereplication_fulllength lines minseqlen mincount) = Some first
        /\ Forall (fun o : OTU => snd o <= snd first) others).
Proof.
  split; [|split; [|split]].
  - intros [sequence count] otus calls Hk. rewrite visit_eq.
    rewrite scan_all_kept by exact Hk. reflexivity.
  - intros c otus otus' calls calls' H.
    apply visit_cases in H. destruct H as [[-> _]|[-> _]]; [left|right]; reflexivity.
  - intros seen rest otus final calls calls' H.
    destruct (cluster_extends _ _ _ _ _ _ H) as [added [E _]].
    rewrite cluster_app in H.
    destruct (cluster_candidates global_align seen otus calls) as [[current|e] calls1];
      [|discriminate].
    destruct (cluster_extends _ _ _ _ _ _ H) as [later [E' _]].
    exists current, calls1, added. split; [reflexivity|]. split; [exact E|].
    exists later. exact E'.
  - intros lines minseqlen mincount chunk_size kmer_size calls calls' first others H.
    unfold abundance_greedy_clustering in H.
    pose proof (dereplication_sorted lines minseqlen mincount) as Hs.
    destruct (dereplication_fulllength lines minseqlen mincount) as [|[sequence count] cs].
    + discriminate H.
    + rewrite cluster_cons, visit_eq in H. cbn [scan_otus ret app] in H.
      destruct (cluster_extends _ _ _ _ _ _ H) as [added [E Hsub]].
      injection E as E1 E2. subst first others. split; [reflexivity|].
      inversion Hs as [|x l _ Hall]; subst.
      rewrite Forall_forall in Hall. apply Forall_forall. intros o Ho.
      apply (subsequence_In _ _ _ Hsub), Hall in Ho.
      unfold count_ge in Ho. simpl in *. lia.
Qed.

Lemma otu_list_append_only_witness :
  fst (visit_candidate pad_align (seq_d, 2) [(seq_c, 4); (seq_a, 3)] [])
  = Ok ([(seq_c, 4); (seq_a, 3)] ++ [(seq_d, 2)])
  /\ hd_error (dereplication_fulllength sample_file 40 1) = Some (seq_c, 4)
  /\ Forall (fun o : OTU => snd o <= snd (seq_c, 4)) [(seq_a, 3); (seq_d, 2)].
Proof.
  destruct (otu_list_append_only pad_align) as [H1 [_ [_ H4]]].
  split.
  - apply (H1 (seq_d, 2)). repeat constructor.
  - apply (H4 sample_file 40 1 100 8 []
              [(seq_a, seq_c); (seq_d, seq_c); (seq_d, seq_a); (seq_b, seq_c); (seq_b, seq_a)]).
    vm_compute. reflexivity.
Defined.

(** C8. Clustering is idempotent on the founders. Running
    [abundance_greedy_clustering] a second time on the same input, with the
    same aligner, ends as the first run did; and clustering the OTUs of a
    result, taken as the candidate stream, gives that OTU list again. *)
Theorem clustering_idempotent
  (global_align : string -> string -> result (string * string))
  (lines : text_file) (minseqlen mincount chunk_size kmer_size : Z)
  (calls : list align_call) :
  fst (abundance_greedy_clustering global_align lines minseqlen mincount
         chunk_size kmer_size
         (snd (abundance_greedy_clustering global_align lines minseqlen mincount
                 chunk_size kmer_size calls)))
  = fst (abundance_greedy_clustering global_align lines minseqlen mincount
           chunk_size kmer_size calls)
  /\ forall (otus : list OTU) (calls' : list align_call),
       abundance_greedy_clustering global_align lines minseqlen mincount
         chunk_size kmer_size calls = (Ok otus, calls') ->
       forall calls2, fst (cluster_candidates global_align otus [] calls2) = Ok otus.
Proof.
  split.
  - unfold abundance_greedy_clustering.
    rewrite (cluster_frame global_align _ [] (snd _)).
    rewrite (cluster_frame global_align _ [] calls). reflexivity.
  - intros otus calls' H calls2.
    apply (cluster_again global_align otus [] calls2).
    unfold abundance_greedy_clustering in H.
    apply (cluster_apart global_align _ _ _ _ _ (FOP_nil _) H).
Qed.

Lemma clustering_idempotent_witness :
  fst (cluster_candidates pad_align [(seq_c, 4); (seq_a, 3); (seq_d, 2)] [] [])
  = Ok [(seq_c, 4); (seq_a, 3); (seq_d, 2)].
Proof.
  apply (proj2 (clustering_idempotent pad_align sample_file 40 1 100 8 [])
           [(seq_c, 4); (seq_a, 3); (seq_d, 2)]
           [(seq_a, seq_c); (seq_d, seq_c); (seq_d, seq_a); (seq_b, seq_c); (seq_b, seq_a)]).
  vm_compute. reflexivity.
Defined.

(** C9. In the list returned by [abundance_greedy_clustering], for any two
    OTUs at positions [i < j], the alignment of the representative of OTU
    [j] against the representative of OTU [i] is computed and its identity
    is strictly below 97. *)
Theorem otus_pairwise_below_threshold
  (global_align : string -> string -> result (string * string))
  (lines : text_file) (minseqlen mincount chunk_size kmer_size : Z)
  (calls calls' : list align_call) (otus : list OTU) :
  abundance_greedy_clustering global_align lines minseqlen mincount
    chunk_size kmer_size calls = (Ok otus, calls') ->
  forall (i j : nat) (oi oj : OTU),
    (i < j)%nat -> nth_error otus i = Some oi -> nth_error otus j = Some oj ->
    exists alignment identity,
      global_align (fst oj) (fst oi) = Ok alignment
      /\ get_identity alignment = Ok identity
      /\ float_lt identity (float_of_int 97) = true.
Proof.
  intros H i j oi oj Hij Hi Hj.
  unfold abundance_greedy_clustering in H.
  pose proof (cluster_apart global_align _ _ _ _ _ (FOP_nil _) H) as Ha.
  apply kept_apart_below.
  apply (ForallOrdPairs_nth _ _ Ha i j oi oj Hij Hi Hj).
Qed.

Lemma otus_pairwise_below_threshold_witness :
  exists alignment identity,
    pad_align (fst (seq_d, 2)) (fst (seq_c, 4)) = Ok alignment
    /\ get_identity alignment = Ok identity
    /\ float_lt identity (float_of_int 97) = true.
Proof.
  apply (otus_pairwise_below_threshold pad_align sample_file 40 1 100 8 []
           [(seq_a, seq_c); (seq_d, seq_c); (seq_d, seq_a); (seq_b, seq_c); (seq_b, seq_a)]
           [(seq_c, 4); (seq_a, 3); (seq_d, 2)]
           ltac:(vm_compute; reflexivity) 0%nat 2%nat (seq_c, 4) (seq_d, 2)).
  - lia.
  - reflexivity.
  - reflexivity.
Defined.

(* ================================================================= *)
(** ** Facts on [write_OTU] *)

Section WriterFacts.

Variable textwrap_fill : string -> Z -> string.

Lemma write_loop (entries : list (Z * OTU)) (f : out_file) :
  fold_left
    (fun f '(i, (sequence, count)) =>
       f_write (f_write f (otu_header i count)) (otu_body textwrap_fill sequence))
    entries f
  = f ++ flat_map (otu_record textwrap_fill) entries.
Proof.
  revert f. induction entries as [|[i [sequence count]] entries IH]; intros f.
  - simpl. rewrite app_nil_r. reflexivity.
  - cbn [fold_left flat_map]. rewrite IH. unfold f_write, otu_record.
    rewrite <- !app_assoc. reflexivity.
Qed.

Lemma write_OTU_records (OTU_list : list OTU) :
  write_OTU textwrap_fill OTU_list = flat_map (otu_record textwrap_fill) (enumerate OTU_list 1).
Proof. unfold write_OTU. rewrite write_loop. reflexivity. Qed.

Lemma records_length (OTU_list : list OTU) (start : Z) :
  List.length (flat_map (otu_record textwrap_fill) (enumerate OTU_list start))
  = (2 * List.length OTU_list)%nat.
Proof.
  revert start. induction OTU_list as [|[sequence count] l IH]; intros start.
  - reflexivity.
  - cbn [enumerate flat_map otu_record List.length app]. rewrite IH. lia.
Qed.

Lemma records_nth (OTU_list : list OTU) :
  forall (start : Z) (k : nat) (sequence : string) (count : Z),
    nth_error OTU_list k = Some (sequence, count) ->
    nth_error (flat_map (otu_record textwrap_fill) (enumerate OTU_list start)) (2 * k)
    = Some (otu_header (start + Z.of_nat k) count)
    /\ nth_error (flat_map (otu_record textwrap_fill) (enumerate OTU_list start)) (2 * k + 1)
       = Some (otu_body textwrap_fill sequence).
Proof.
  induction OTU_list as [|[s c] l IH]; intros start k sequence count H.
  - destruct k; discriminate.
  - destruct k as [|k].
    + injection H as -> ->. cbn [enumerate flat_map otu_record app].
      rewrite Z.add_0_r. split; reflexivity.
    + simpl in H. cbn [enumerate flat_map otu_record app].
      replace (2 * S k)%nat with (S (S (2 * k))) by lia.
      replace (S (S (2 * k)) + 1)%nat with (S (S (2 * k + 1))) by lia.
      cbn [nth_error].
      replace (start + Z.of_nat (S k)) with (start + 1 + Z.of_nat k) by lia.
      apply IH. assumption.
Qed.

End WriterFacts.

(** C7. [write_OTU] writes one record per OTU, a header then a body: the
    record of the OTU at position [k] (from 0) has the header
    [>OTU_<k+1> occurrence:<count>] with the count of that OTU, and its body
    is the sequence wrapped by [textwrap.fill] at width 80. For the empty
    list nothing is written: the file is empty and no error is raised. *)
Theorem write_OTU_records_in_order
  (textwrap_fill : string -> Z -> string) (OTU_list : list OTU) :
  List.length (write_OTU textwrap_fill OTU_list) = (2 * List.length OTU_list)%nat
  /\ (forall (k : nat) (sequence : string) (count : Z),
        nth_error OTU_list k = Some (sequence, count) ->
        nth_error (write_OTU textwrap_fill OTU_list) (2 * k)
        = Some (">OTU_" ++ str_of_int (Z.of_nat k + 1) ++ " occurrence:"
                  ++ str_of_int count ++ newline)%string
        /\ nth_error (write_OTU textwrap_fill OTU_list) (2 * k + 1)
           = Some (textwrap_fill sequence 80 ++ newline)%string)
  /\ write_OTU textwrap_fill [] = []
  /\ content (write_OTU textwrap_fill []) = EmptyString.
Proof.
  rewrite write_OTU_records. split; [apply records_length|].
  split; [|split; reflexivity].
  intros k sequence count H.
  destruct (records_nth textwrap_fill OTU_list 1 k sequence count H) as [H1 H2].
  rewrite H1, H2. rewrite (Z.add_comm 1). split; reflexivity.
Qed.

Lemma write_OTU_records_in_order_witness :
  nth_error (write_OTU one_line_fill [("ACGT", 12); ("GG", 3)]) (2 * 1)
  = Some (">OTU_2 occurrence:3" ++ newline)%string
  /\ nth_error (write_OTU one_line_fill [("ACGT", 12); ("GG", 3)]) (2 * 1 + 1)
     = Some ("GG" ++ newline)%string.
Proof.
  apply (proj1 (proj2 (write_OTU_records_in_order one_line_fill [("ACGT", 12); ("GG", 3)]))
           1%nat "GG" 3).
  reflexivity.
Defined.

(* ================================================================= *)
(** ** More on [Counter] and [most_common] *)

Lemma Counter_snoc (items : list string) (k : string) :
  Counter (items ++ [k]) = counter_incr k (Counter items).
Proof. unfold Counter. rewrite fold_left_app. reflexivity. Qed.

Lemma first_seen_In (items : list string) (s : string) :
  In s (first_seen items) <-> In s items.
Proof.
  induction items as [|x rest IH]; simpl; [tauto|].
  rewrite filter_In, IH. destruct (String.eqb_spec s x) as [->|Hn]; simpl.
  - split; auto.
  - split; [intros [H|[H _]]; auto|intros [H|H]; auto].
Qed.

Lemma first_seen_NoDup (items : list string) : NoDup (first_seen items).
Proof.
  induction items as [|x rest IH]; simpl; constructor.
  - rewrite filter_In. intros [_ H]. rewrite String.eqb_refl in H. discriminate.
  - apply NoDup_filter, IH.
Qed.

Lemma first_seen_snoc (items : list string) (k : string) :
  first_seen (items ++ [k])
  = if existsb (String.eqb k) items then first_seen items else first_seen items ++ [k].
Proof.
  induction items as [|x rest IH]; [reflexivity|].
  cbn [app first_seen existsb]. rewrite IH.
  destruct (String.eqb_spec k x) as [->|Hn]; cbn [orb].
  - destruct (existsb (String.eqb x) rest); [reflexivity|].
    rewrite filter_app. cbn [filter]. rewrite String.eqb_refl. cbn [negb].
    rewrite app_nil_r. reflexivity.
  - destruct (existsb (String.eqb k) rest); [reflexivity|].
    rewrite filter_app. cbn [filter].
    destruct (String.eqb_spec k x); [contradiction|]. reflexivity.
Qed.

Lemma occurrences_snoc (items : list string) (k s : string) :
  occurrences (items ++ [k]) s
  = occurrences items s + (if String.eqb s k then 1 else 0).
Proof.
  unfold occurrences. rewrite count_occ_app. cbn [count_occ].
  destruct (string_dec k s) as [->|Hn].
  - rewrite String.eqb_refl. lia.
  - destruct (String.eqb_spec s k); [congruence|lia].
Qed.

Lemma occurrences_pos (items : list string) (s : string) :
  In s items <-> 1 <= occurrences items s.
Proof.
  unfold occurrences. rewrite (count_occ_In string_dec). lia.
Qed.

Lemma counter_incr_map (k : string) (f : string -> Z) (keys : list string) :
  NoDup keys ->
  counter_incr k (map (fun s => (s, f s)) keys)
  = if existsb (String.eqb k) keys
    then map (fun s => (s, f s + (if String.eqb s k then 1 else 0))) keys
    else map (fun s => (s, f s)) keys ++ [(k, 1)].
Proof.
  induction 1 as [|x keys Hx Hk IH]; [reflexivity|].
  cbn [map counter_incr existsb]. rewrite (String.eqb_sym k x).
  destruct (String.eqb_spec x k) as [->|Hn]; cbn [orb].
  - f_equal. apply map_ext_in. intros s Hs.
    destruct (String.eqb_spec s k); [congruence|]. rewrite Z.add_0_r. reflexivity.
  - rewrite IH. rewrite Z.add_0_r.
    destruct (existsb (String.eqb k) keys); reflexivity.
Qed.

(** The content of a Counter: each distinct item with its number of
    occurrences, in the order of first occurrence. *)
Lemma Counter_spec (items : list string) :
  Counter items = map (fun s => (s, occurrences items s)) (first_seen items).
Proof.
  induction items as [|k items IH] using rev_ind; [reflexivity|].
  rewrite Counter_snoc, IH, counter_incr_map by apply first_seen_NoDup.
  rewrite first_seen_snoc.
  assert (E : existsb (String.eqb k) (first_seen items) = existsb (String.eqb k) items).
  { apply eq_true_iff_eq. rewrite !existsb_eqb_In. apply first_seen_In. }
  rewrite E. destruct (existsb (String.eqb k) items) eqn:Hin.
  - apply map_ext. intros s. rewrite occurrences_snoc. reflexivity.
  - rewrite map_app. cbn [map]. f_equal.
    + apply map_ext_in. intros s Hs. rewrite occurrences_snoc.
      destruct (String.eqb_spec s k) as [->|]; [|rewrite Z.add_0_r; reflexivity].
      apply (proj1 (first_seen_In _ _)) in Hs.
      apply (proj2 (existsb_eqb_In _ _)) in Hs. congruence.
    + rewrite occurrences_snoc, String.eqb_refl.
      assert (H0 : occurrences items k = 0).
      { destruct (Z.eq_dec (occurrences items k) 0) as [|Hne]; [assumption|].
        assert (Hp : 1 <= occurrences items k) by (unfold occurrences in *; lia).
        apply (proj2 (occurrences_pos _ _)) in Hp.
        apply (proj2 (existsb_eqb_In _ _)) in Hp. congruence. }
      rewrite H0. reflexivity.
Qed.

Lemma insert_desc_filter_count (n : Z) (x : string * Z) (l : list (string * Z)) :
  filter (fun c => snd c =? n) (insert_desc x l)
  = if snd x =? n then x :: filter (fun c => snd c =? n) l
    else filter (fun c => snd c =? n) l.
Proof.
  induction l as [|y l IH]; [reflexivity|].
  cbn [insert_desc]. destruct (snd y >? snd x) eqn:G; [|reflexivity].
  cbn [filter]. rewrite IH. apply Z.gtb_lt in G.
  destruct (Z.eqb_spec (snd x) n), (Z.eqb_spec (snd y) n); try reflexivity. lia.
Qed.

(** The sort is stable: among the items of one count the order is kept. *)
Lemma sorted_desc_filter_count (n : Z) (l : list (string * Z)) :
  filter (fun c => snd c =? n) (sorted_desc l) = filter (fun c => snd c =? n) l.
Proof.
  induction l as [|x l IH]; [reflexivity|].
  cbn [sorted_desc filter]. rewrite insert_desc_filter_count, IH. reflexivity.
Qed.

Lemma filter_filter_impl {A} (f g : A -> bool) (l : list A) :
  (forall x, f x = true -> g x = true) ->
  filter f (filter g l) = filter f l.
Proof.
  intros H. induction l as [|x l IH]; [reflexivity|].
  cbn [filter]. destruct (g x) eqn:G.
  - cbn [filter]. rewrite IH. reflexivity.
  - rewrite IH. destruct (f x) eqn:F; [|reflexivity].
    apply H in F. congruence.
Qed.

Lemma dereplication_In (lines : text_file) (minseqlen mincount : Z) (s : string) (n : Z) :
  In (s, n) (dereplication_fulllength lines minseqlen mincount)
  <-> In s (read_fasta lines minseqlen)
      /\ n = occurrences (read_fasta lines minseqlen) s
      /\ n >= mincount.
Proof.
  unfold dereplication_fulllength, most_common. rewrite filter_In.
  assert (P : In (s, n) (sorted_desc (Counter (read_fasta lines minseqlen)))
              <-> In (s, n) (Counter (read_fasta lines minseqlen))).
  { split; apply Permutation_in;
      [apply sorted_desc_perm|apply Permutation_sym, sorted_desc_perm]. }
  rewrite P, Counter_spec, in_map_iff.
  split.
  - intros [[s' [E Hs]] Hn]. injection E as -> ->.
    apply (proj1 (first_seen_In _ _)) in Hs. apply Z.geb_le in Hn.
    repeat split; [assumption|lia].
  - intros [Hs [-> Hn]]. split.
    + exists s. split; [reflexivity|]. apply (proj2 (first_seen_In _ _)). assumption.
    + apply Z.geb_le. lia.
Qed.

Lemma sum_cons (x : Z) (l : list Z) : sum (x :: l) = x + sum l.
Proof. unfold sum. cbn [fold_left]. rewrite sum_from. unfold sum. lia. Qed.

Lemma sum_perm (l1 l2 : list Z) : Permutation l1 l2 -> sum l1 = sum l2.
Proof.
  induction 1; rewrite ?sum_cons; lia.
Qed.

Lemma counter_incr_sum (k : string) (c : counter) :
  sum (map snd (counter_incr k c)) = sum (map snd c) + 1.
Proof.
  induction c as [|[k' n] c IH]; [reflexivity|].
  cbn [counter_incr]. destruct (String.eqb k' k); cbn [map snd];
    rewrite !sum_cons; [|rewrite IH]; lia.
Qed.

Lemma Counter_sum (items : list string) :
  sum (map snd (Counter items)) = Z.of_nat (List.length items).
Proof.
  induction items as [|k items IH] using rev_ind; [reflexivity|].
  rewrite Counter_snoc, counter_incr_sum, IH, length_app. simpl. lia.
Qed.

Lemma filter_sum_le (f : string * Z -> bool) (l : list (string * Z)) :
  Forall (fun c => 0 <= snd c) l ->
  sum (map snd (filter f l)) <= sum (map snd l).
Proof.
  induction 1 as [|x l Hx Hl IH]; [reflexivity|].
  cbn [filter map]. destruct (f x); cbn [map]; rewrite ?sum_cons; lia.
Qed.

Lemma filter_all {A} (f : A -> bool) (l : list A) :
  Forall (fun x => f x = true) l -> filter f l = l.
Proof.
  induction 1 as [|x l Hx Hl IH]; [reflexivity|].
  cbn [filter]. rewrite Hx, IH. reflexivity.
Qed.

Lemma Counter_counts_pos (items : list string) :
  Forall (fun c : string * Z => 1 <= snd c) (Counter items).
Proof.
  rewrite Counter_spec. apply Forall_forall. intros [s n] H.
  apply in_map_iff in H. destruct H as [s' [E Hs]]. injection E as -> <-.
  apply occurrences_pos. apply (proj1 (first_seen_In _ _)). assumption.
Qed.

(** X1. The stream of [dereplication_fulllength] holds the pair [(s, n)]
    exactly when [s] is among the sequences yielded by [read_fasta], [n] is
    the number of times [s] is yielded, and [n >= mincount]: counts are
    exact and no sequence that is frequent enough is lost. *)
Theorem dereplication_exact_counts
  (lines : text_file) (minseqlen mincount : Z) (s : string) (n : Z) :
  In (s, n) (dereplication_fulllength lines minseqlen mincount)
  <-> In s (read_fasta lines minseqlen)
      /\ n = occurrences (read_fasta lines minseqlen) s
      /\ n >= mincount.
Proof. apply dereplication_In. Qed.

(** X2. Candidates of equal count are yielded in the order in which their
    sequences first appear in the input: for a count [n >= mincount], the
    candidates of count [n], in stream order, are the sequences read [n]
    times, in order of first occurrence. *)
Theorem dereplication_tie_order
  (lines : text_file) (minseqlen mincount n : Z) :
  n >= mincount ->
  map fst (filter (fun c : candidate => snd c =? n)
                  (dereplication_fulllength lines minseqlen mincount))
  = filter (fun s => occurrences (read_fasta lines minseqlen) s =? n)
           (first_seen (read_fasta lines minseqlen)).
Proof.
  intros Hn. unfold dereplication_fulllength, most_common.
  rewrite filter_filter_impl.
  - rewrite sorted_desc_filter_count, Counter_spec.
    induction (first_seen (read_fasta lines minseqlen)) as [|s l IH]; [reflexivity|].
    cbn [map filter snd].
    destruct (occurrences (read_fasta lines minseqlen) s =? n); cbn [map fst];
      rewrite IH; reflexivity.
  - intros [s k] H. apply Z.eqb_eq in H. apply Z.geb_le. simpl in *. lia.
Qed.

Lemma dereplication_tie_order_witness :
  map fst (filter (fun c : candidate => snd c =? 1)
                  (dereplication_fulllength
                     (fasta_of ["GGGG"; "AAAA"; "CCCC"; "GGGG"; "TTTT"]) 4 1))
  = ["AAAA"; "CCCC"; "TTTT"].
Proof.
  apply (dereplication_tie_order (fasta_of ["GGGG"; "AAAA"; "CCCC"; "GGGG"; "TTTT"]) 4 1 1).
  lia.
Defined.

(** X3. Every candidate has a sequence of length at least [minseqlen] and a
    count of at least 1, whatever [mincount] is. *)
Theorem dereplication_candidates_valid
  (lines : text_file) (minseqlen mincount : Z) :
  Forall (fun c : candidate => len (fst c) >= minseqlen /\ 1 <= snd c)
         (dereplication_fulllength lines minseqlen mincount).
Proof.
  apply Forall_forall. intros [s n] H.
  apply dereplication_In in H. destruct H as [Hs [-> _]]. cbn [fst snd]. split.
  - rewrite read_fasta_filter in Hs. apply filter_In in Hs.
    destruct Hs as [_ Hs]. unfold long_enough in Hs. apply Z.geb_le in Hs. lia.
  - apply occurrences_pos. assumption.
Qed.

(** X4. The counts of the candidates add up to at most the number of
    sequences yielded by [read_fasta], and to exactly that number when
    [mincount <= 1]: dereplication neither invents nor, without a count
    threshold, loses a read. *)
Theorem dereplication_conserves_reads
  (lines : text_file) (minseqlen mincount : Z) :
  sum (map snd (dereplication_fulllength lines minseqlen mincount))
  <= Z.of_nat (List.length (read_fasta lines minseqlen))
  /\ (mincount <= 1 ->
      sum (map snd (dereplication_fulllength lines minseqlen mincount))
      = Z.of_nat (List.length (read_fasta lines minseqlen))).
Proof.
  unfold dereplication_fulllength, most_common.
  assert (Hs : sum (map snd (sorted_desc (Counter (read_fasta lines minseqlen))))
               = Z.of_nat (List.length (read_fasta lines minseqlen))).
  { rewrite <- Counter_sum. apply sum_perm, Permutation_map, sorted_desc_perm. }
  assert (Hp : Forall (fun c : string * Z => 1 <= snd c)
                      (sorted_desc (Counter (read_fasta lines minseqlen)))).
  { apply (Permutation_Forall (Permutation_sym (sorted_desc_perm _))).
    apply Counter_counts_pos. }
  split.
  - rewrite <- Hs. apply filter_sum_le.
    eapply Forall_impl; [|exact Hp]. simpl. intros; lia.
  - intros Hm. rewrite filter_all; [exact Hs|].
    eapply Forall_impl; [|exact Hp]. intros [s n] H. apply Z.geb_le. simpl in *. lia.
Qed.

Lemma dereplication_conserves_reads_witness :
  sum (map snd (dereplication_fulllength sample_file 40 1))
  = Z.of_nat (List.length (read_fasta sample_file 40)).
Proof.
  apply (proj2 (dereplication_conserves_reads sample_file 40 1)). lia.
Defined.

(* ================================================================= *)
(** ** More on [read_fasta] and [get_identity] *)

Lemma record_blocks_app (l1 l2 : list string) (h : string) :
  startswith h ">" = true ->
  forall current,
    record_blocks (l1 ++ h :: l2) current
    = record_blocks l1 current ++ record_blocks l2 [].
Proof.
  intros Hh. induction l1 as [|line l1 IH]; intros current.
  - cbn [app record_blocks]. rewrite Hh. reflexivity.
  - cbn [app record_blocks]. destruct (startswith line ">").
    + rewrite IH. reflexivity.
    + apply IH.
Qed.

Lemma record_blocks_no_header (lines : list string) :
  Forall (fun line => startswith line ">" = false) lines ->
  forall current, record_blocks lines current = [current ++ lines].
Proof.
  induction 1 as [|line lines Hl Hr IH]; intros current.
  - rewrite app_nil_r. reflexivity.
  - cbn [record_blocks]. rewrite Hl, IH, <- app_assoc. reflexivity.
Qed.

(** X5. A header line separates two independent parts of the text: the
    sequences read from [l1 ++ h :: l2], where [h] starts with [>], are the
    sequences read from [l1] followed by those read from [l2]. What the
    header line says after [>] plays no part. *)
Theorem read_fasta_header_splits
  (l1 l2 : list string) (h : string) (minseqlen : Z) :
  startswith h ">" = true ->
  read_fasta (l1 ++ h :: l2) minseqlen
  = read_fasta l1 minseqlen ++ read_fasta l2 minseqlen.
Proof.
  intros Hh. rewrite !read_fasta_filter. unfold fasta_records.
  rewrite (record_blocks_app l1 l2 h Hh), map_app, filter_app. reflexivity.
Qed.

Lemma read_fasta_header_splits_witness :
  read_fasta ([("AC" ++ newline)%string] ++ (">r2 any text" ++ newline)%string
                :: [("GG" ++ newline)%string; ("T" ++ newline)%string]) 2
  = read_fasta [("AC" ++ newline)%string] 2
    ++ read_fasta [("GG" ++ newline)%string; ("T" ++ newline)%string] 2.
Proof.
  apply (read_fasta_header_splits
           [("AC" ++ newline)%string] [("GG" ++ newline)%string; ("T" ++ newline)%string]
           (">r2 any text" ++ newline)%string 2).
  reflexivity.
Defined.

(** X6. Raising [minseqlen] only removes sequences: for [m1 <= m2] the
    sequences read with [m2] are those read with [m1] that have length at
    least [m2], in the same order. *)
Theorem read_fasta_minseqlen_monotone (lines : text_file) (m1 m2 : Z) :
  m1 <= m2 ->
  read_fasta lines m2 = filter (long_enough m2) (read_fasta lines m1).
Proof.
  intros H. rewrite !read_fasta_filter. symmetry. apply filter_filter_impl.
  intros s Hs. unfold long_enough in *. apply Z.geb_le. apply Z.geb_le in Hs. lia.
Qed.

Lemma read_fasta_minseqlen_monotone_witness :
  read_fasta (fasta_of ["ACGT"; "AC"; "ACGTT"]) 4
  = filter (long_enough 4) (read_fasta (fasta_of ["ACGT"; "AC"; "ACGTT"]) 1).
Proof.
  apply (read_fasta_minseqlen_monotone (fasta_of ["ACGT"; "AC"; "ACGTT"]) 1 4). lia.
Defined.

(** X7. A text without any header line is read as one record, the join of
    its stripped lines, kept when it is long enough. In particular the
    empty text yields the empty sequence when [minseqlen <= 0] and nothing
    otherwise. *)
Theorem read_fasta_without_header (lines : text_file) (minseqlen : Z) :
  Forall (fun line => startswith line ">" = false) lines ->
  read_fasta lines minseqlen
  = (if len (join_block lines) >=? minseqlen then [join_block lines] else [])
  /\ read_fasta [] minseqlen = (if 0 >=? minseqlen then [EmptyString] else []).
Proof.
  intros H. split; [|reflexivity].
  rewrite read_fasta_filter. unfold fasta_records.
  rewrite (record_blocks_no_header lines H []). reflexivity.
Qed.

Lemma read_fasta_without_header_witness :
  read_fasta [("AC" ++ newline)%string; ("GT" ++ newline)%string] 4 = ["ACGT"].
Proof.
  apply (proj1 (read_fasta_without_header
                  [("AC" ++ newline)%string; ("GT" ++ newline)%string] 4
                  ltac:(repeat constructor))).
Defined.

(** X8. The identity is symmetric in the two rows of an alignment of equal
    lengths. *)
Theorem get_identity_symmetric (alignedA alignedB : string) :
  String.length alignedA = String.length alignedB ->
  get_identity (alignedA, alignedB) = get_identity (alignedB, alignedA).
Proof.
  intros H. unfold get_identity, len.
  rewrite (count_matches_sym alignedA alignedB), H. reflexivity.
Qed.

Lemma get_identity_symmetric_witness :
  get_identity ("AC-T", "A-GT") = get_identity ("A-GT", "AC-T").
Proof. apply (get_identity_symmetric "AC-T" "A-GT"). reflexivity. Defined.

(* ================================================================= *)
(** ** More on the greedy clustering *)

Lemma subsequence_Forall {A} (P : A -> Prop) (l1 l2 : list A) :
  subsequence l1 l2 -> Forall P l2 -> Forall P l1.
Proof.
  induction 1 as [|x l1 l2 H IH|x l1 l2 H IH]; intros HP.
  - constructor.
  - inversion HP; subst. apply IH. assumption.
  - inversion HP; subst. constructor; [assumption|apply IH; assumption].
Qed.

Lemma subsequence_sorted {A} (R : A -> A -> Prop) (l1 l2 : list A) :
  subsequence l1 l2 -> StronglySorted R l2 -> StronglySorted R l1.
Proof.
  induction 1 as [|x l1 l2 H IH|x l1 l2 H IH]; intros HS.
  - constructor.
  - inversion HS; subst. apply IH. assumption.
  - inversion HS; subst. constructor; [apply IH; assumption|].
    apply (subsequence_Forall _ _ _ H). assumption.
Qed.

Lemma subsequence_map {A B} (f : A -> B) (l1 l2 : list A) :
  subsequence l1 l2 -> subsequence (map f l1) (map f l2).
Proof.
  induction 1 as [|x l1 l2 H IH|x l1 l2 H IH]; simpl.
  - apply subsequence_nil.
  - apply subsequence_skip, IH.
  - apply subsequence_keep, IH.
Qed.

Lemma subsequence_NoDup {A} (l1 l2 : list A) :
  subsequence l1 l2 -> NoDup l2 -> NoDup l1.
Proof.
  induction 1 as [|x l1 l2 H IH|x l1 l2 H IH]; intros HN.
  - constructor.
  - inversion HN; subst. apply IH. assumption.
  - inversion HN as [|y l Hx Hl]; subst. constructor; [|apply IH; assumption].
    intros Hin. apply Hx. apply (subsequence_In _ _ _ H Hin).
Qed.

Section ClusteringMore.

Variable global_align : string -> string -> result (string * string).

Local Abbreviation scan := (scan_otus global_align).
Local Abbreviation visit := (visit_candidate global_align).
Local Abbreviation cluster := (cluster_candidates global_align).
Local Abbreviation kept := (kept_by global_align).
Local Abbreviation absorbed := (absorbed_by global_align).

Lemma cluster_covers (candidates : list candidate) :
  forall otus calls result calls',
    cluster candidates otus calls = (Ok result, calls') ->
    Forall (fun c : candidate =>
              In c result
              \/ Exists (fun o : OTU => absorbed (fst c) (fst o) = true) result)
           candidates.
Proof.
  induction candidates as [|c rest IH]; intros otus calls result calls' H.
  - constructor.
  - rewrite cluster_cons in H.
    destruct (visit c otus calls) as [[otus'|e] tr] eqn:E; [|discriminate].
    constructor; [|apply (IH _ _ _ _ H)].
    destruct (cluster_extends _ _ _ _ _ _ H) as [added [-> _]].
    apply visit_cases in E.
    destruct E as [[-> _]|[-> [pre [o [post [-> [_ [Ho _]]]]]]]].
    + left. rewrite !in_app_iff. simpl. tauto.
    + right. apply Exists_exists. exists o. split; [|assumption].
      rewrite !in_app_iff. simpl. tauto.
Qed.

Lemma calls_against_length (sequence : string) (otus : list OTU) :
  List.length (calls_against sequence otus) = List.length otus.
Proof. unfold calls_against. apply length_map. Qed.

Lemma scan_calls_length (sequence : string) (otus : list OTU) :
  (List.length (snd (scan sequence otus [])) <= List.length otus)%nat.
Proof.
  destruct (scan_cases global_align sequence otus)
    as [Hk|[pre [o [post [E [Hp [Ho|[e Ho]]]]]]]].
  - rewrite scan_all_kept by assumption. cbn [snd app].
    rewrite calls_against_length. lia.
  - subst otus. rewrite scan_first_absorbed by assumption. cbn [snd app].
    rewrite calls_against_length, !length_app. simpl. lia.
  - subst otus. rewrite (scan_first_raises _ _ _ _ _ e) by assumption. cbn [snd app].
    rewrite calls_against_length, !length_app. simpl. lia.
Qed.

Lemma visit_calls_length (c : candidate) (otus : list OTU) :
  (List.length (snd (visit c otus [])) <= List.length otus)%nat
  /\ forall otus', fst (visit c otus []) = Ok otus' ->
                   (List.length otus' <= List.length otus + 1)%nat.
Proof.
  destruct c as [sequence count]. rewrite visit_eq.
  pose proof (scan_calls_length sequence otus) as H.
  destruct (scan sequence otus []) as [[[]|e] tr]; cbn [fst snd] in *;
    (split; [assumption|]); intros otus' E; try discriminate;
    injection E as <-; rewrite ?length_app; simpl; lia.
Qed.

Lemma cluster_calls_length (candidates : list candidate) :
  forall otus,
    (2 * List.length (snd (cluster candidates otus [])) + List.length candidates
     <= 2 * List.length candidates * List.length otus
        + List.length candidates * List.length candidates)%nat.
Proof.
  induction candidates as [|c rest IH]; intros otus.
  - simpl. lia.
  - rewrite cluster_cons.
    destruct (visit_calls_length c otus) as [Hc Ho].
    destruct (visit c otus []) as [[otus'|e] tr] eqn:E; cbn [fst snd] in *.
    + rewrite cluster_frame. cbn [snd]. rewrite length_app.
      specialize (IH otus'). specialize (Ho otus' eq_refl).
      cbn [List.length]. nia.
    + cbn [List.length]. nia.
Qed.

End ClusteringMore.

(** X9. The OTU list returned by [abundance_greedy_clustering] is a
    subsequence of the candidate stream: each OTU is a candidate with its
    own count, in stream order. So the OTUs inherit what holds of the
    stream: lengths at least [minseqlen], counts at least [mincount],
    non-increasing counts and distinct sequences. *)
Theorem otus_are_candidates
  (global_align : string -> string -> result (string * string))
  (lines : text_file) (minseqlen mincount chunk_size kmer_size : Z)
  (calls calls' : list align_call) (otus : list OTU) :
  abundance_greedy_clustering global_align lines minseqlen mincount
    chunk_size kmer_size calls = (Ok otus, calls') ->
  subsequence otus (dereplication_fulllength lines minseqlen mincount)
  /\ Forall (fun o : OTU => len (fst o) >= minseqlen /\ snd o >= mincount) otus
  /\ StronglySorted (fun a b : OTU => snd a >= snd b) otus
  /\ NoDup (map fst otus).
Proof.
  intros H. unfold abundance_greedy_clustering in H.
  destruct (cluster_extends _ _ _ _ _ _ H) as [added [E Hs]].
  simpl in E. subst added.
  split; [exact Hs|]. split; [|split].
  - apply (subsequence_Forall _ _ _ Hs). apply Forall_forall. intros [s n] Hin.
    apply dereplication_In in Hin. destruct Hin as [Hr [_ Hm]]. cbn [fst snd].
    split; [|assumption].
    rewrite read_fasta_filter in Hr. apply filter_In in Hr.
    destruct Hr as [_ Hr]. unfold long_enough in Hr. apply Z.geb_le in Hr. lia.
  - apply (subsequence_sorted _ _ _ Hs), dereplication_sorted.
  - apply (subsequence_NoDup _ _ (subsequence_map fst _ _ Hs)).
    unfold dereplication_fulllength.
    apply filter_NoDup_keys, most_common_NoDup, Counter_NoDup.
Qed.

Lemma otus_are_candidates_witness :
  subsequence [(seq_c, 4); (seq_a, 3); (seq_d, 2)]
              (dereplication_fulllength sample_file 40 1)
  /\ Forall (fun o : OTU => len (fst o) >= 40 /\ snd o >= 1)
            [(seq_c, 4); (seq_a, 3); (seq_d, 2)]
  /\ StronglySorted (fun a b : OTU => snd a >= snd b) [(seq_c, 4); (seq_a, 3); (seq_d, 2)]
  /\ NoDup (map fst [(seq_c, 4); (seq_a, 3); (seq_d, 2)]).
Proof.
  apply (otus_are_candidates pad_align sample_file 40 1 100 8 []
           [(seq_a, seq_c); (seq_d, seq_c); (seq_d, seq_a); (seq_b, seq_c); (seq_b, seq_a)]).
  vm_compute. reflexivity.
Defined.

(** X10. Every candidate of the stream is accounted for in the result: it
    is one of the OTUs, or some OTU of the result gives it an identity of at
    least 97. *)
Theorem candidates_are_covered
  (global_align : string -> string -> result (string * string))
  (lines : text_file) (minseqlen mincount chunk_size kmer_size : Z)
  (calls calls' : list align_call) (otus : list OTU) :
  abundance_greedy_clustering global_align lines minseqlen mincount
    chunk_size kmer_size calls = (Ok otus, calls') ->
  Forall (fun c : candidate =>
            In c otus
            \/ Exists (fun o : OTU => absorbed_by global_align (fst c) (fst o) = true) otus)
         (dereplication_fulllength lines minseqlen mincount).
Proof.
  intros H. apply (cluster_covers global_align _ _ _ _ _ H).
Qed.

Lemma candidates_are_covered_witness :
  Forall (fun c : candidate =>
            In c [(seq_c, 4); (seq_a, 3); (seq_d, 2)]
            \/ Exists (fun o : OTU => absorbed_by pad_align (fst c) (fst o) = true)
                      [(seq_c, 4); (seq_a, 3); (seq_d, 2)])
         (dereplication_fulllength sample_file 40 1).
Proof.
  apply (candidates_are_covered pad_align sample_file 40 1 100 8 []
           [(seq_a, seq_c); (seq_d, seq_c); (seq_d, seq_a); (seq_b, seq_c); (seq_b, seq_a)]).
  vm_compute. reflexivity.
Defined.

(** X11. A run over [n] candidates calls the aligner at most [n (n - 1) / 2]
    times, whether it returns or raises; the calls are added after those
    made before the run. *)
Theorem aligner_calls_bound
  (global_align : string -> string -> result (string * string))
  (lines : text_file) (minseqlen mincount chunk_size kmer_size : Z)
  (calls : list align_call) :
  exists made,
    snd (abundance_greedy_clustering global_align lines minseqlen mincount
           chunk_size kmer_size calls) = calls ++ made
    /\ (List.length made
        <= List.length (dereplication_fulllength lines minseqlen mincount)
           * (List.length (dereplication_fulllength lines minseqlen mincount) - 1) / 2)%nat.
Proof.
  unfold abundance_greedy_clustering.
  set (cands := dereplication_fulllength lines minseqlen mincount).
  exists (snd (cluster_candidates global_align cands [] [])).
  split.
  - rewrite cluster_frame. reflexivity.
  - pose proof (cluster_calls_length global_align cands []) as H.
    apply Nat.div_le_lower_bound; [lia|].
    simpl in H. destruct (List.length cands); nia.
Qed.

(** X12. An exception stops the run. When the turn of a candidate comes
    and the first OTU that does not give an identity below 97 makes the
    aligner or [get_identity] raise, the whole clustering raises that
    exception: no OTU list is returned, and no later OTU or candidate is
    examined. *)
Theorem exception_aborts_clustering
  (global_align : string -> string -> result (string * string))
  (lines : text_file) (minseqlen mincount chunk_size kmer_size : Z)
  (before after : list candidate) (sequence : string) (count : Z)
  (pre post : list OTU) (o : OTU) (e : exn) (calls calls1 : list align_call) :
  dereplication_fulllength lines minseqlen mincount
  = before ++ (sequence, count) :: after ->
  cluster_candidates global_align before [] calls = (Ok (pre ++ o :: post), calls1) ->
  Forall (kept_by global_align sequence) pre ->
  identity_of global_align sequence (fst o) = Raise e ->
  abundance_greedy_clustering global_align lines minseqlen mincount
    chunk_size kmer_size calls
  = (Raise e, calls1 ++ calls_against sequence (pre ++ [o])).
Proof.
  intros Hd Hb Hpre Ho.
  unfold abundance_greedy_clustering.
  rewrite Hd, cluster_app, Hb, cluster_cons, visit_eq.
  rewrite (scan_first_raises _ _ _ _ _ e) by assumption. reflexivity.
Qed.

Lemma exception_aborts_clustering_witness :
  abundance_greedy_clustering empty_align sample_file 40 1 100 8 []
  = (Raise ZeroDivisionError, [] ++ calls_against seq_a ([] ++ [(seq_c, 4)])).
Proof.
  apply (exception_aborts_clustering empty_align sample_file 40 1 100 8
           [(seq_c, 4)] [(seq_d, 2); (seq_b, 1)] seq_a 3 [] [] (seq_c, 4)
           ZeroDivisionError [] []).
  - vm_compute. reflexivity.
  - reflexivity.
  - constructor.
  - reflexivity.
Defined.

(* ================================================================= *)
(** ** Facts on [main] *)

Lemma main_eq
  (global_align : string -> string -> result (string * string))
  (textwrap_fill : string -> Z -> string) (args : arguments) (calls : list align_call) :
  main global_align textwrap_fill args calls
  = match abundance_greedy_clustering global_align
            (amplicon_file args) (minseqlen args) (mincount args) 100 8 calls with
    | (Ok otu_list, calls') =>
        (Ok (write_OTU textwrap_fill otu_list, main_messages args), calls')
    | (Raise e, calls') => (Raise e, calls')
    end.
Proof. reflexivity. Qed.



(** X14. The file written by a run of [main] that does not raise has one
    record per OTU of the clustering, headers numbered from 1. The record
    at position [k] carries a count of at least [mincount], a sequence of
    length at least [minseqlen] wrapped at width 80, and a count no larger
    than the count in any earlier header. *)
Theorem main_output_records
  (global_align : string -> string -> result (string * string))
  (textwrap_fill : string -> Z -> string) (args : arguments)
  (calls calls' : list align_call) (file : out_file) (messages : list string) :
  main global_align textwrap_fill args calls = (Ok (file, messages), calls') ->
  exists otus,
    abundance_greedy_clustering global_align (amplicon_file args) (minseqlen args)
      (mincount args) 100 8 calls = (Ok otus, calls')
    /\ List.length file = (2 * List.length otus)%nat
    /\ forall (k : nat) (sequence : string) (count : Z),
         nth_error otus k = Some (sequence, count) ->
         nth_error file (2 * k) = Some (otu_header (Z.of_nat k + 1) count)
         /\ nth_error file (2 * k + 1)
            = Some (textwrap_fill sequence 80 ++ newline)%string
         /\ count >= mincount args
         /\ len sequence >= minseqlen args
         /\ forall (i : nat) (s : string) (c : Z),
              (i < k)%nat -> nth_error otus i = Some (s, c) -> c >= count.
Proof.
  rewrite main_eq.
  destruct (abundance_greedy_clustering global_align (amplicon_file args)
              (minseqlen args) (mincount args) 100 8 calls) as [[otus|e] tr] eqn:E;
    [|discriminate].
  intros H. injection H as <- _ <-. exists otus. split; [reflexivity|].
  rewrite write_OTU_records. split; [apply records_length|].
  intros k sequence count Hk.
  destruct (records_nth textwrap_fill otus 1 k sequence count Hk) as [H1 H2].
  rewrite H1, H2, (Z.add_comm 1).
  unfold abundance_greedy_clustering in E.
  destruct (cluster_extends _ _ _ _ _ _ E) as [added [Ea Hs]].
  simpl in Ea. subst added.
  assert (Hin : In (sequence, count)
                   (dereplication_fulllength (amplicon_file args) (minseqlen args)
                      (mincount args))).
  { apply (subsequence_In _ _ _ Hs). eapply nth_error_In, Hk. }
  apply dereplication_In in Hin. destruct Hin as [Hr [Ho Hm]].
  rewrite read_fasta_filter in Hr. apply filter_In in Hr. destruct Hr as [_ Hr].
  unfold long_enough in Hr. apply Z.geb_le in Hr.
  repeat split; try assumption; try lia.
  intros i s c Hik Hi.
  pose proof (subsequence_sorted _ _ _ Hs (dereplication_sorted _ _ _)) as Hsorted.
  assert (Hp : ForallOrdPairs count_ge otus)
    by (apply sorted_ForallOrdPairs, Hsorted).
  apply (ForallOrdPairs_nth _ _ Hp i k (s, c) (sequence, count) Hik Hi Hk).
Qed.

Lemma main_output_records_witness :
  exists otus,
    abundance_greedy_clustering pad_align
      (amplicon_file {| amplicon_file := sample_file; minseqlen := 40; mincount := 1;
                        output_file := "OTU.fasta" |})
      (minseqlen {| amplicon_file := sample_file; minseqlen := 40; mincount := 1;
                    output_file := "OTU.fasta" |})
      (mincount {| amplicon_file := sample_file; minseqlen := 40; mincount := 1;
                   output_file := "OTU.fasta" |}) 100 8 []
    = (Ok otus, [(seq_a, seq_c); (seq_d, seq_c); (seq_d, seq_a);
                 (seq_b, seq_c); (seq_b, seq_a)])
    /\ List.length
         (write_OTU one_line_fill [(seq_c, 4); (seq_a, 3); (seq_d, 2)])
       = (2 * List.length otus)%nat.
Proof.
  destruct (main_output_records pad_align one_line_fill
              {| amplicon_file := sample_file; minseqlen := 40; mincount := 1;
                 output_file := "OTU.fasta" |}
              [] [(seq_a, seq_c); (seq_d, seq_c); (seq_d, seq_a);
                  (seq_b, seq_c); (seq_b, seq_a)]
              (write_OTU one_line_fill [(seq_c, 4); (seq_a, 3); (seq_d, 2)])
              (main_messages {| amplicon_file := sample_file; minseqlen := 40;
                                mincount := 1; output_file := "OTU.fasta" |})
              ltac:(vm_compute; reflexivity)) as [otus [H1 [H2 _]]].
  exists otus. split; assumption.
Defined.

(* ================================================================= *)
(** ** The threshold test in exact arithmetic

    The quotient and the product of [get_identity] are each rounded to the
    nearest binary64. The lemmas below follow the digits through the two
    roundings and show that, for alignments of fewer than [2 ^ 46] columns,
    the test [identity >= 97] decides exactly whether 97 per cent of the
    columns are equal. *)

Lemma shr_1_div2 mrs : 0 <= shr_m mrs -> shr_m (shr_1 mrs) = shr_m mrs / 2.
Proof.
  destruct mrs as [m r s]. simpl. intros H. rewrite <- Z.div2_div.
  destruct m as [|[p|p|]|p]; try reflexivity. lia.
Qed.

Lemma shr_1_bits mrs : 0 <= shr_m mrs ->
  shr_r (shr_1 mrs) = Z.odd (shr_m mrs)
  /\ shr_s (shr_1 mrs) = orb (shr_r mrs) (shr_s mrs).
Proof.
  destruct mrs as [m r s]. simpl. intros H.
  destruct m as [|[p|p|]|p]; try (split; reflexivity). lia.
Qed.

Lemma loc_of_exact R D : R = 0 -> loc_of R D = loc_Exact.
Proof. intros ->. reflexivity. Qed.

Lemma loc_of_inexact R D c : R <> 0 -> (2 * R ?= D) = c -> loc_of R D = loc_Inexact c.
Proof.
  intros H <-. unfold loc_of. apply Z.eqb_neq in H. rewrite H. reflexivity.
Qed.

Lemma loc_of_shr_record_eq m r s :
  loc_of_shr_record {| shr_m := m; shr_r := r; shr_s := s |}
  = match r, s with
    | false, false => loc_Exact
    | false, true => loc_Inexact Lt
    | true, false => loc_Inexact Eq
    | true, true => loc_Inexact Gt
    end.
Proof. destruct r, s; reflexivity. Qed.

Lemma shr_1_inv mrs N D : shr_inv mrs N D -> shr_inv (shr_1 mrs) N (2 * D).
Proof.
  intros (HD & HN & Hm & Hl).
  assert (Hm0 : 0 <= shr_m mrs) by (rewrite Hm; apply Z.div_pos; lia).
  pose proof (Z.mod_pos_bound N D HD) as HR.
  destruct (shr_1_bits mrs Hm0) as [Hr Hs].
  pose proof (shr_1_div2 mrs Hm0) as Hd.
  repeat split; try lia.
  - rewrite Hd, Hm. rewrite Z.div_div by lia. f_equal. lia.
  - assert (HR' : N mod (2 * D) = N mod D + D * (if Z.odd (shr_m mrs) then 1 else 0)).
    { rewrite (Z.mul_comm 2 D), Z.rem_mul_r by lia. rewrite <- Hm, Zmod_odd. reflexivity. }
    rewrite HR'.
    destruct (shr_1 mrs) as [m' r' s']. cbn [shr_r shr_s shr_m] in Hr, Hs, Hd. subst r' s'.
    rewrite loc_of_shr_record_eq.
    destruct mrs as [m r s]. cbn [shr_r shr_s shr_m] in *.
    rewrite loc_of_shr_record_eq in Hl.
    destruct (Z.eq_dec (N mod D) 0) as [E0|E0].
    + rewrite (loc_of_exact _ _ E0) in Hl.
      destruct r, s; try discriminate. cbn [orb].
      destruct (Z.odd m).
      * symmetry. apply loc_of_inexact; [lia|]. apply Z.compare_eq_iff. lia.
      * symmetry. apply loc_of_exact. lia.
    + assert (Hrs : orb r s = true).
      { destruct r, s; try reflexivity. unfold loc_of in Hl.
        apply Z.eqb_neq in E0. rewrite E0 in Hl. discriminate. }
      rewrite Hrs. destruct (Z.odd m).
      * symmetry. apply loc_of_inexact; [lia|]. apply Z.compare_gt_iff. lia.
      * symmetry. apply loc_of_inexact; [lia|]. apply Z.compare_lt_iff. lia.
Qed.

Lemma iter_shr_1_inv p : forall mrs N D,
  shr_inv mrs N D -> shr_inv (iter_pos shr_1 p mrs) N (D * 2 ^ Z.pos p).
Proof.
  induction p as [p IH|p IH|]; intros mrs N D H; simpl iter_pos.
  - apply shr_1_inv, IH, IH in H.
    replace (D * 2 ^ Z.pos p~1) with (2 * D * 2 ^ Z.pos p * 2 ^ Z.pos p); [exact H|].
    replace (Z.pos p~1) with (Z.pos p + Z.pos p + 1) by lia.
    rewrite !Z.pow_add_r by lia. change (2 ^ 1) with 2. lia.
  - apply IH, IH in H.
    replace (D * 2 ^ Z.pos p~0) with (D * 2 ^ Z.pos p * 2 ^ Z.pos p); [exact H|].
    replace (Z.pos p~0) with (Z.pos p + Z.pos p) by lia.
    rewrite !Z.pow_add_r by lia. lia.
  - apply shr_1_inv in H. rewrite Z.mul_comm. exact H.
Qed.

Lemma shr_record_of_loc_inv mx R D :
  0 <= mx -> 0 <= R < D ->
  shr_inv (shr_record_of_loc mx (loc_of R D)) (mx * D + R) D.
Proof.
  intros Hm HR.
  assert (Hd : (mx * D + R) / D = mx).
  { rewrite Z.add_comm, Z.div_add by lia. rewrite Z.div_small by lia. lia. }
  assert (Hr : (mx * D + R) mod D = R).
  { rewrite Z.add_comm, Z.mod_add by lia. apply Z.mod_small. lia. }
  repeat split; try lia; try nia.
  - rewrite shr_record_of_loc_m. symmetry. exact Hd.
  - rewrite Hr. destruct (loc_of R D) as [|[]]; reflexivity.
Qed.

Lemma shr_fexp_inv mx ex R D :
  0 <= mx -> 0 <= R < D ->
  exists mrs k,
    shr_fexp prec emax mx ex (loc_of R D) = (mrs, ex + k)
    /\ k = Z.max 0 (fexp prec emax (Zdigits2 mx + ex) - ex)
    /\ shr_inv mrs (mx * D + R) (D * 2 ^ k).
Proof.
  intros Hm HR. unfold shr_fexp, shr.
  pose proof (shr_record_of_loc_inv mx R D Hm HR) as Hi.
  destruct (fexp prec emax (Zdigits2 mx + ex) - ex) as [|p|p] eqn:E.
  - eexists _, 0. rewrite Z.add_0_r. split; [reflexivity|]. split; [reflexivity|].
    rewrite Z.mul_1_r. exact Hi.
  - eexists _, (Z.pos p). split; [reflexivity|]. split; [lia|].
    apply iter_shr_1_inv, Hi.
  - eexists _, 0. rewrite Z.add_0_r. split; [reflexivity|]. split; [lia|].
    rewrite Z.mul_1_r. exact Hi.
Qed.

Lemma round_nearest_even_inv mrs N D :
  shr_inv mrs N D ->
  let z := round_nearest_even (shr_m mrs) (loc_of_shr_record mrs) in
  N / D <= z <= N / D + 1
  /\ 2 * z * D - D <= 2 * N <= 2 * z * D + D.
Proof.
  intros (HD & HN & Hm & Hl). rewrite Hl, Hm.
  pose proof (Z.mod_pos_bound N D HD) as HR.
  pose proof (Z.div_mod N D ltac:(lia)) as HND.
  clear Hm Hl. revert HR HND. generalize (N / D) (N mod D). intros q r HR HND. subst N.
  unfold loc_of. destruct (r =? 0) eqn:E0; cbn [round_nearest_even]; cbv zeta.
  - apply Z.eqb_eq in E0. lia.
  - apply Z.eqb_neq in E0.
    destruct (2 * r ?= D) eqn:C; cbv zeta.
    + apply (proj1 (Z.compare_eq_iff _ _)) in C. destruct (Z.even q); lia.
    + apply (proj1 (Z.compare_lt_iff _ _)) in C. lia.
    + apply (proj1 (Z.compare_gt_iff _ _)) in C. lia.
Qed.

Lemma Zdigits2_bounds m : 0 < m -> 2 ^ (Zdigits2 m - 1) <= m < 2 ^ Zdigits2 m.
Proof.
  destruct m as [|p|p]; try lia. intros _. simpl Zdigits2. rewrite digits2_pos_size.
  pose proof (Pos.size_gt p) as Hg. pose proof (Pos.size_le p) as Hl.
  apply Pos2Z.pos_lt_pos in Hg. apply Pos2Z.pos_le_pos in Hl.
  rewrite Pos2Z.inj_pow in Hg, Hl. change (Z.pos p~0) with (2 * Z.pos p) in Hl.
  split; [|exact Hg].
  replace (Z.pos (Pos.size p)) with (Z.pos (Pos.size p) - 1 + 1) in Hl by lia.
  rewrite Z.pow_add_r in Hl by lia. change (2 ^ 1) with 2 in Hl. lia.
Qed.

Lemma Zdigits2_unique m k : 0 < k -> 2 ^ (k - 1) <= m < 2 ^ k -> Zdigits2 m = k.
Proof.
  intros Hk [H1 H2].
  assert (Hm : 0 < m).
  { assert (0 < 2 ^ (k - 1)) by (apply Z.pow_pos_nonneg; lia). lia. }
  destruct (Zdigits2_bounds m Hm) as [B1 B2].
  assert (Hd : 0 < Zdigits2 m) by (destruct m; simpl; lia).
  assert (k - 1 < Zdigits2 m).
  { apply (Z.pow_lt_mono_r_iff 2); lia. }
  assert (Zdigits2 m - 1 < k).
  { apply (Z.pow_lt_mono_r_iff 2); lia. }
  lia.
Qed.

Lemma binary_round_aux_spec sx mx ex R D :
  0 <= R < D -> 0 < mx -> 53 <= Zdigits2 mx ->
  -1074 <= ex + Zdigits2 mx - 53 -> ex + Zdigits2 mx - 52 <= 971 ->
  exists mz a,
    binary_round_aux prec emax sx mx ex (loc_of R D) = S754_finite sx mz (ex + a)
    /\ 2 ^ 52 <= Z.pos mz < 2 ^ 53
    /\ (a = Zdigits2 mx - 53 \/ a = Zdigits2 mx - 52)
    /\ 2 * (Z.pos mz * 2 ^ a * D) - D * 2 ^ a <= 2 * (mx * D + R)
       <= 2 * (Z.pos mz * 2 ^ a * D) + D * 2 ^ a.
Proof.
  intros HR Hmx Hd Hlo Hhi.
  destruct (shr_fexp_inv mx ex R D ltac:(lia) HR) as (mrs & k & E1 & Hk & Hi1).
  rewrite fexp_eq in Hk.
  assert (Ek : k = Zdigits2 mx - 53) by lia. clear Hk.
  unfold binary_round_aux. rewrite E1.
  pose proof (round_nearest_even_inv mrs _ _ Hi1) as Hz. cbv zeta in Hz.
  set (z := round_nearest_even (shr_m mrs) (loc_of_shr_record mrs)) in *.
  set (N := mx * D + R) in *.
  assert (Hpk : 0 < 2 ^ k) by (apply Z.pow_pos_nonneg; lia).
  destruct (Zdigits2_bounds mx Hmx) as [B1 B2].
  replace (Zdigits2 mx - 1) with (52 + k) in B1 by lia.
  replace (Zdigits2 mx) with (53 + k) in B2 by lia.
  rewrite Z.pow_add_r in B1, B2 by lia.
  assert (Hm1 : 2 ^ 52 <= N / (D * 2 ^ k) < 2 ^ 53).
  { rewrite <- Z.div_div by lia.
    replace (N / D) with mx.
    - split; [apply Z.div_le_lower_bound; lia|apply Z.div_lt_upper_bound; lia].
    - unfold N. rewrite Z.add_comm, Z.div_add by lia.
      rewrite Z.div_small by lia. lia. }
  destruct Hz as [Hz1 Hz2].
  assert (Hzr : 2 ^ 52 <= z <= 2 ^ 53) by lia.
  destruct (shr_fexp_inv z (ex + k) 0 1 ltac:(lia) ltac:(lia)) as (mrs2 & k2 & E2 & Hk2 & Hi2).
  change (loc_of 0 1) with loc_Exact in E2. rewrite E2.
  rewrite fexp_eq in Hk2. destruct Hi2 as (_ & _ & Hm2 & _).
  rewrite Z.mul_1_r, Z.add_0_r, Z.mul_1_l in Hm2. rewrite Hm2.
  destruct (Z.eq_dec z (2 ^ 53)) as [Ez|Ez].
  - assert (Hdz : Zdigits2 z = 54) by (rewrite Ez; reflexivity).
    rewrite Hdz in Hk2. assert (Ek2 : k2 = 1) by lia. clear Hk2. subst k2.
    rewrite Ez. change (2 ^ 53 / 2 ^ 1) with (Z.pos 4503599627370496).
    replace (ex + k + 1 <=? emax - prec) with true
      by (symmetry; apply Z.leb_le; unfold emax, prec; lia).
    exists 4503599627370496%positive, (k + 1).
    rewrite Z.add_assoc. split; [reflexivity|]. split; [split; [reflexivity|reflexivity]|].
    split; [lia|].
    rewrite Z.pow_add_r by lia. change (2 ^ 1) with 2.
    change (Z.pos 4503599627370496) with (2 ^ 52).
    rewrite Ez in Hz2. change (2 ^ 53) with (2 * 2 ^ 52) in Hz2. nia.
  - assert (Hdz : Zdigits2 z = 53) by (apply Zdigits2_unique; [lia|]; change (53 - 1) with 52; lia).
    rewrite Hdz in Hk2. assert (Ek2 : k2 = 0) by lia. clear Hk2. subst k2.
    change (2 ^ 0) with 1. rewrite Z.div_1_r.
    destruct z as [|mz|mz]; try lia.
    rewrite Z.add_0_r.
    replace (ex + k <=? emax - prec) with true
      by (symmetry; apply Z.leb_le; unfold emax, prec; lia).
    exists mz, k. split; [reflexivity|]. split; [lia|]. split; [lia|]. nia.
Qed.

Lemma new_location_loc_of n r : 0 < n -> 0 <= r < n -> new_location n r = loc_of r n.
Proof.
  intros Hn Hr. unfold new_location, loc_of.
  pose proof (Zmod_even n) as He.
  pose proof (Z.div_mod n 2 ltac:(lia)) as Hdm.
  destruct (Z.even n).
  - reflexivity.
  - unfold new_location_odd. destruct (r =? 0); [reflexivity|]. f_equal.
    destruct (2 * r + 1 ?= n) eqn:C1; destruct (2 * r ?= n) eqn:C2;
      try reflexivity;
      try (apply (proj1 (Z.compare_eq_iff _ _)) in C1);
      try (apply (proj1 (Z.compare_lt_iff _ _)) in C1);
      try (apply (proj1 (Z.compare_gt_iff _ _)) in C1);
      try (apply (proj1 (Z.compare_eq_iff _ _)) in C2);
      try (apply (proj1 (Z.compare_lt_iff _ _)) in C2);
      try (apply (proj1 (Z.compare_gt_iff _ _)) in C2); lia.
Qed.

Lemma SFdiv_spec (pm pn : positive) :
  Z.pos pm <= Z.pos pn -> Z.pos pn < 2 ^ 46 ->
  exists mq s a,
    SFdiv prec emax (S754_finite false pm 0) (S754_finite false pn 0)
    = S754_finite false mq (a - s)
    /\ 53 <= s <= 99 /\ 0 <= a <= 2
    /\ s = 53 + Zdigits2 (Z.pos pn) - Zdigits2 (Z.pos pm)
    /\ 2 ^ 52 <= Z.pos mq < 2 ^ 53
    /\ 2 * (Z.pos mq * 2 ^ a * Z.pos pn) - Z.pos pn * 2 ^ a
       <= 2 * (Z.pos pm * 2 ^ s)
       <= 2 * (Z.pos mq * 2 ^ a * Z.pos pn) + Z.pos pn * 2 ^ a.
Proof.
  intros Hmn Hn.
  set (m := Z.pos pm) in *. set (n := Z.pos pn) in *.
  assert (Hd12 : Zdigits2 m <= Zdigits2 n) by (apply Zdigits2_mono; lia).
  assert (Hd2 : Zdigits2 n <= 46) by (apply Zdigits2_bound; lia).
  assert (Hd1 : 1 <= Zdigits2 m) by (unfold m; simpl; lia).
  destruct (Zdigits2_bounds m ltac:(lia)) as [M1 M2].
  destruct (Zdigits2_bounds n ltac:(lia)) as [N1 N2].
  set (s := 53 + Zdigits2 n - Zdigits2 m).
  unfold SFdiv, SFdiv_core_binary. fold m n.
  rewrite fexp_eq.
  replace (Z.min (Z.max (Zdigits2 m + 0 - (Zdigits2 n + 0) - 53) (-1074)) (0 - 0))
    with (- s) by (unfold s; lia).
  replace (0 - 0 - - s) with s by lia.
  assert (Hs : 53 <= s <= 99) by (unfold s; lia).
  destruct s as [|ps|ps] eqn:Es; try lia. rewrite <- Es in *.
  rewrite Z.shiftl_mul_pow2 by lia.
  pose proof (Z.div_eucl_eq (m * 2 ^ s) n ltac:(lia)) as Hq.
  pose proof (Z.mod_pos_bound (m * 2 ^ s) n ltac:(lia)) as Hr.
  unfold Z.modulo in Hr.
  destruct (Z.div_eucl (m * 2 ^ s) n) as [Q R].
  rewrite new_location_loc_of by lia.
  assert (HS : 2 ^ (Zdigits2 m - 1) * 2 ^ s = 2 ^ 53 * 2 ^ (Zdigits2 n - 1)).
  { rewrite <- !Z.pow_add_r by lia. f_equal. unfold s in Es |- *. lia. }
  assert (HS2 : 2 ^ Zdigits2 m = 2 * 2 ^ (Zdigits2 m - 1)).
  { replace (Zdigits2 m) with (1 + (Zdigits2 m - 1)) at 1 by lia.
    rewrite Z.pow_add_r by lia. reflexivity. }
  assert (HS3 : 2 ^ Zdigits2 n = 2 * 2 ^ (Zdigits2 n - 1)).
  { replace (Zdigits2 n) with (1 + (Zdigits2 n - 1)) at 1 by lia.
    rewrite Z.pow_add_r by lia. reflexivity. }
  assert (Hps : 0 < 2 ^ s) by (apply Z.pow_pos_nonneg; lia).
  assert (HQ : 2 ^ 52 <= Q < 2 ^ 54).
  { change (2 ^ 54) with (2 * (2 * 2 ^ 52)). change (2 ^ 53) with (2 * 2 ^ 52) in HS.
    assert (Hc : 0 < 2 ^ 52) by reflexivity.
    generalize dependent (2 ^ 52). intros c HS Hc.
    generalize dependent (2 ^ (Zdigits2 m - 1)). intros P1 M1 HS2 HS.
    generalize dependent (2 ^ (Zdigits2 n - 1)). intros P2 N1 HS3 HS.
    rewrite HS2 in M2. rewrite HS3 in N2.
    generalize dependent (2 ^ s). intros S Hq HS Hps.
    clear - Hq Hr M1 M2 N1 N2 HS Hps Hc.
    assert (A1 : P1 * S <= m * S) by nia.
    assert (A2 : m * S < 2 * P1 * S) by nia.
    assert (A3 : n * c < 2 * P2 * c) by nia.
    assert (A4 : P2 * (4 * c) <= n * (4 * c)) by nia.
    split.
    - destruct (Z_lt_le_dec Q c) as [Hlt|]; [exfalso|assumption].
      assert (n * (Q + 1) <= n * c) by nia. lia.
    - destruct (Z_lt_le_dec Q (2 * (2 * c))) as [|Hge]; [assumption|exfalso].
      assert (n * (4 * c) <= n * Q) by nia. lia. }
  assert (HdQ : Zdigits2 Q = 53 \/ Zdigits2 Q = 54).
  { destruct (Z_lt_le_dec Q (2 ^ 53)).
    - left. apply Zdigits2_unique; [lia|]. change (53 - 1) with 52. lia.
    - right. apply Zdigits2_unique; [lia|]. change (54 - 1) with 53. lia. }
  destruct (binary_round_aux_spec (xorb false false) Q (- s) R n)
    as (mq & a & E & Hmq & Ha & Hb); try lia.
  exists mq, s, a. rewrite E. cbn [xorb].
  split; [f_equal; lia|]. split; [assumption|]. split; [lia|].
  split; [reflexivity|]. split; [assumption|].
  rewrite Hq. lia.
Qed.

Lemma SFmul_100_spec (mq : positive) (eq : Z) :
  2 ^ 52 <= Z.pos mq < 2 ^ 53 -> -200 <= eq <= 0 ->
  exists mp b,
    float_mul (S754_finite false mq eq) (float_of_int 100)
    = S754_finite false mp (eq - 46 + b)
    /\ 52 <= b <= 54
    /\ 2 ^ 52 <= Z.pos mp < 2 ^ 53
    /\ 2 * (Z.pos mp * 2 ^ b) - 2 ^ b
       <= 2 * (Z.pos mq * (100 * 2 ^ 46))
       <= 2 * (Z.pos mp * 2 ^ b) + 2 ^ b.
Proof.
  intros Hmq Heq. unfold float_mul.
  change (float_of_int 100) with (S754_finite false 7036874417766400 (-46)).
  unfold SFmul. cbn [xorb].
  change loc_Exact with (loc_of 0 1).
  rewrite Pos2Z.inj_mul.
  change (Z.pos 7036874417766400) with (100 * 2 ^ 46).
  set (P := Z.pos mq * (100 * 2 ^ 46)).
  assert (HP : 2 ^ 104 <= P < 2 ^ 106) by (unfold P; lia).
  assert (HdP : Zdigits2 P = 105 \/ Zdigits2 P = 106).
  { destruct (Z_lt_le_dec P (2 ^ 105)).
    - left. apply Zdigits2_unique; [lia|]. change (105 - 1) with 104. lia.
    - right. apply Zdigits2_unique; [lia|]. change (106 - 1) with 105. lia. }
  destruct (binary_round_aux_spec false P (eq + -46) 0 1)
    as (mp & b & E & Hmp & Hb & Hbd); try lia.
  exists mp, b. rewrite E.
  split; [f_equal; lia|]. split; [lia|]. split; [assumption|].
  lia.
Qed.

Lemma SFleb_finite_pos (m1 m2 : positive) (e1 e2 : Z) :
  SFleb (S754_finite false m1 e1) (S754_finite false m2 e2) = true
  <-> e1 < e2 \/ (e1 = e2 /\ Z.pos m1 <= Z.pos m2).
Proof.
  unfold SFleb, SFcompare.
  destruct (e1 ?= e2) eqn:C.
  - apply (proj1 (Z.compare_eq_iff _ _)) in C. subst e2.
    change (Pos.compare_cont Eq m1 m2) with (Pos.compare m1 m2).
    destruct (Pos.compare m1 m2) eqn:Cm.
    + apply Pos.compare_eq in Cm. subst. split; [intros _; right; split; lia|reflexivity].
    + apply (proj1 (Pos.compare_lt_iff _ _)) in Cm.
      split; [intros _; right; split; lia|reflexivity].
    + apply (proj1 (Pos.compare_gt_iff _ _)) in Cm.
      split; [discriminate|intros [H|[_ H]]; lia].
  - apply (proj1 (Z.compare_lt_iff _ _)) in C. split; [intros _; left; lia|reflexivity].
  - apply (proj1 (Z.compare_gt_iff _ _)) in C.
    split; [discriminate|intros [H|[H _]]; lia].
Qed.

Lemma quotient_upper (m n mq A S : Z) :
  0 < n < 2 ^ 46 -> 0 < A -> 0 < S -> 100 * m <= 97 * n - 1 ->
  2 * (mq * A * n) - n * A <= 2 * (m * S) ->
  2 ^ 46 * (200 * (mq * A)) < 2 ^ 46 * (194 * S + 100 * A) - 2 * S.
Proof.
  intros Hn HA HS Hm HD.
  assert (H2 : 100 * (m * S) <= 97 * (n * S) - S) by nia.
  assert (H3 : 2 * (n * S) < 2 ^ 47 * S) by nia.
  apply (Z.mul_lt_mono_pos_l n); [lia|].
  change (2 ^ 47) with 140737488355328 in H3.
  change (2 ^ 46) with 70368744177664.
  lia.
Qed.

Lemma quotient_lower (m n mq A S : Z) :
  0 < n -> 0 < A -> 0 < S -> 97 * n <= 100 * m ->
  2 * (m * S) <= 2 * (mq * A * n) + n * A ->
  194 * S <= 200 * (mq * A) + 100 * A.
Proof.
  intros Hn HA HS Hm HD.
  assert (H2 : 97 * (n * S) <= 100 * (m * S)) by nia.
  apply (Z.mul_le_mono_pos_l _ _ n); [lia|]. lia.
Qed.

Lemma threshold_pos (pm pn : positive) :
  Z.pos pm <= Z.pos pn -> Z.pos pn < 2 ^ 46 ->
  exists q,
    SFdiv prec emax (S754_finite false pm 0) (S754_finite false pn 0) = q
    /\ is_number q = true
    /\ (float_ge (float_mul q (float_of_int 100)) threshold = true
        <-> 97 * Z.pos pn <= 100 * Z.pos pm).
Proof.
  intros Hmn Hn.
  destruct (SFdiv_spec pm pn Hmn Hn) as (mq & s & a & Eq & Hs & Ha & _ & Hmq & HD).
  rewrite Eq. eexists. split; [reflexivity|]. split; [reflexivity|].
  destruct (SFmul_100_spec mq (a - s) Hmq ltac:(lia)) as (mp & b & Ep & Hb & Hmp & HM).
  rewrite Ep. unfold float_ge.
  change threshold with (S754_finite false 6825768185233408 (-46)).
  rewrite SFleb_finite_pos.
  change (Z.pos 6825768185233408) with (97 * 2 ^ 46).
  set (m := Z.pos pm) in *. set (n := Z.pos pn) in *.
  assert (HA : 0 < 2 ^ a) by (apply Z.pow_pos_nonneg; lia).
  assert (HS : 0 < 2 ^ s) by (apply Z.pow_pos_nonneg; lia).
  split.
  - intros Hge.
    destruct (Z_le_gt_dec (97 * n) (100 * m)) as [|Hlt]; [assumption|exfalso].
    pose proof (quotient_upper m n (Z.pos mq) (2 ^ a) (2 ^ s)
                  ltac:(lia) HA HS ltac:(lia) ltac:(lia)) as HU.
    clear HD.
    assert (Hs' : s = 53 \/ s = 54 \/ s = 55 \/ s = 56) by lia.
    assert (Ha' : a = 0 \/ a = 1 \/ a = 2) by lia.
    assert (Hb' : b = 52 \/ b = 53 \/ b = 54) by lia.
    destruct Hs' as [-> | [-> | [-> | ->]]]; destruct Ha' as [-> | [-> | ->]];
      destruct Hb' as [-> | [-> | ->]]; lia.
  - intros Hle.
    pose proof (quotient_lower m n (Z.pos mq) (2 ^ a) (2 ^ s)
                  ltac:(lia) HA HS Hle ltac:(lia)) as HL.
    clear HD.
    assert (Hs56 : s < 56).
    { apply (Z.pow_lt_mono_r_iff 2); [lia|lia|].
      assert (2 ^ a <= 2 ^ 2) by (apply Z.pow_le_mono_r; lia).
      change (2 ^ 2) with 4 in *. change (2 ^ 56) with 72057594037927936.
      change (2 ^ 53) with 9007199254740992 in Hmq. nia. }
    assert (Hs' : s = 53 \/ s = 54 \/ s = 55) by lia.
    assert (Ha' : a = 0 \/ a = 1 \/ a = 2) by lia.
    assert (Hb' : b = 52 \/ b = 53 \/ b = 54) by lia.
    destruct Hs' as [-> | [-> | ->]]; destruct Ha' as [-> | [-> | ->]];
      destruct Hb' as [-> | [-> | ->]]; lia.
Qed.

Lemma identity_threshold_int (m n : Z) :
  0 <= m <= n -> 0 < n < 2 ^ 46 ->
  exists q,
    int_truediv m n = Ok q
    /\ (float_ge (float_mul q (float_of_int 100)) threshold = true
        <-> 97 * n <= 100 * m).
Proof.
  intros Hm Hn. unfold int_truediv.
  destruct n as [|pn|pn]; try lia.
  replace (Z.pos pn =? 0) with false by reflexivity.
  destruct m as [|pm|pm]; try lia.
  - exists (S754_zero false). split; [reflexivity|].
    split; [discriminate|lia].
  - destruct (threshold_pos pm pn ltac:(lia) ltac:(lia)) as (q & Eq & Hq & Hiff).
    unfold exact_int. rewrite Eq. exists q. split; [|exact Hiff].
    destruct q; try discriminate; reflexivity.
Qed.

(** X15. For an alignment of at least 1 and fewer than [2 ^ 46] columns,
    [get_identity] returns a float, and the test [identity >= 97] on it
    succeeds exactly when at least 97 per cent of the columns carry equal
    characters: the two roundings of the float computation never change the
    outcome of the test. *)
Theorem identity_test_is_exact (alignedA alignedB : string) :
  1 <= len alignedA < 2 ^ 46 ->
  exists identity,
    get_identity (alignedA, alignedB) = Ok identity
    /\ (float_ge identity (float_of_int 97) = true
        <-> 97 * len alignedA <= 100 * matching_columns alignedA alignedB).
Proof.
  intros H. rewrite <- count_matches_columns.
  destruct (identity_threshold_int (count_matches alignedA alignedB) (len alignedA)
              (count_matches_bounds alignedA alignedB) ltac:(lia)) as (q & Eq & Hiff).
  exists (float_mul q (float_of_int 100)). split; [|exact Hiff].
  unfold get_identity. rewrite Eq. reflexivity.
Qed.

Lemma identity_test_is_exact_witness :
  exists identity,
    get_identity (seq_b, seq_a) = Ok identity
    /\ (float_ge identity (float_of_int 97) = true
        <-> 97 * len seq_b <= 100 * matching_columns seq_b seq_a).
Proof.
  apply (identity_test_is_exact seq_b seq_a).
  change (len seq_b) with 40. lia.
Defined.

(** X16. When the aligner returns an alignment of at least 1 and fewer
    than [2 ^ 46] columns for a candidate and an OTU, the candidate is
    absorbed by that OTU exactly when at least 97 per cent of the columns
    of the alignment carry equal characters, and is kept apart from it
    exactly when fewer do. *)
Theorem absorbed_iff_97_percent
  (global_align : string -> string -> result (string * string))
  (sequence otu alignedA alignedB : string) :
  global_align sequence otu = Ok (alignedA, alignedB) ->
  1 <= len alignedA < 2 ^ 46 ->
  (absorbed_by global_align sequence otu = true
   <-> 97 * len alignedA <= 100 * matching_columns alignedA alignedB)
  /\ (kept_apart global_align sequence otu = true
      <-> 100 * matching_columns alignedA alignedB < 97 * len alignedA).
Proof.
  intros Hal H. rewrite <- count_matches_columns.
  destruct (identity_threshold_int (count_matches alignedA alignedB) (len alignedA)
              (count_matches_bounds alignedA alignedB) ltac:(lia)) as (q & Eq & Hiff).
  unfold absorbed_by, kept_apart, identity_of. rewrite Hal. cbn [try_bind].
  unfold get_identity. rewrite Eq. cbn [try_bind].
  split; [exact Hiff|].
  destruct (float_ge (float_mul q (float_of_int 100)) threshold); cbn [negb].
  - split; [discriminate|]. intros Hlt. assert (true = true) by reflexivity.
    apply Hiff in H0. lia.
  - split; [|reflexivity]. intros _.
    destruct (Z_lt_le_dec (100 * count_matches alignedA alignedB) (97 * len alignedA))
      as [|Hle]; [assumption|].
    apply Hiff in Hle. discriminate.
Qed.

Lemma absorbed_iff_97_percent_witness :
  (absorbed_by pad_align seq_b seq_a = true
   <-> 97 * len seq_b <= 100 * matching_columns seq_b seq_a)
  /\ (kept_apart pad_align seq_b seq_a = true
      <-> 100 * matching_columns seq_b seq_a < 97 * len seq_b).
Proof.
  apply (absorbed_iff_97_percent pad_align seq_b seq_a seq_b seq_a).
  - reflexivity.
  - change (len seq_b) with 40. lia.
Defined.

(* ================================================================= *)
(** ** Whitespace in the sequences read *)

Lemma head_is_space_append (a b : string) :
  head_is_space a = false -> head_is_space b = false ->
  head_is_space (a ++ b) = false.
Proof. destruct a; simpl; auto. Qed.

Lemma last_is_space_append (a b : string) :
  last_is_space a = false -> last_is_space b = false ->
  last_is_space (a ++ b) = false.
Proof.
  induction a as [|c a IH]; intros Ha Hb; [exact Hb|].
  destruct a as [|d a].
  - cbn [append]. destruct b; [exact Ha|exact Hb].
  - change (last_is_space (String d a ++ b) = false). apply IH; assumption.
Qed.

Lemma join_block_no_outer_space (block : list string) :
  head_is_space (join_block block) = false
  /\ last_is_space (join_block block) = false.
Proof.
  unfold join_block. induction block as [|line block [IH1 IH2]].
  - split; reflexivity.
  - cbn [map]. rewrite concat_empty_cons.
    destruct (strip_split line) as (_ & _ & _ & _ & _ & Hh & Hl).
    split; [apply head_is_space_append|apply last_is_space_append]; assumption.
Qed.

(** X17. No sequence yielded by [read_fasta] begins or ends with a
    whitespace character: every body line is stripped before it is
    appended. Whitespace inside a line is kept. *)
Theorem read_fasta_no_outer_whitespace (lines : text_file) (minseqlen : Z) :
  Forall (fun sequence =>
            head_is_space sequence = false /\ last_is_space sequence = false)
         (read_fasta lines minseqlen)
  /\ read_fasta [("A C" ++ newline)%string] 1 = ["A C"].
Proof.
  split; [|reflexivity].
  rewrite read_fasta_filter. apply Forall_forall. intros s Hs.
  apply filter_In in Hs. destruct Hs as [Hs _].
  unfold fasta_records in Hs. apply in_map_iff in Hs.
  destruct Hs as [block [<- _]]. apply join_block_no_outer_space.
Qed.
